(** * Interval branch-and-bound minimisation (optimization-mpi.cpp)

    A shallow embedding of [split_box], [minimize] and the rank-local part
    of [main], followed by the properties of the search that the
    specification states.

    Numbers.  The program computes on C++ [double]s.  They are idealised
    here as exact rationals ([Q]); the only non-finite value the program
    itself introduces, the initial [+infinity] of [min_ub], is kept as a
    separate constructor ([PInf]).  NaN is outside the model.  Rounding
    is modelled in the one place where the search depends on it, the
    midpoint that [split_box] stores in a [double]: [split_box_with] and
    [minimize_with] take the stored midpoint as a parameter, and
    [mid_double] is the binary64 one. *)

From Stdlib Require Import QArith Qround Qpower ZArith List Bool Lia Lqa.
From Stdlib Require Import Sorting.Sorted.
From Stdlib Require PrimFloat SpecFloat FloatOps Uint63.
Import ListNotations.

Open Scope Q_scope.

(** ** Doubles and their comparisons *)

(** [a < b] on doubles, as a boolean. *)
Definition Qltb (a b : Q) : bool := negb (Qle_bool b a).

(** The type of [min_ub]: a finite double or [+infinity]
    ([numeric_limits<double>::infinity()], main line 101). *)
Inductive bound : Type :=
| Fin (q : Q)
| PInf.

(** [q > b] for a finite [q] and a bound [b] (the prune test, line 30). *)
Definition gt_bound (q : Q) (b : bound) : bool :=
  match b with
  | Fin u => Qltb u q
  | PInf => false
  end.

(** [q < b] for a finite [q] and a bound [b] (the tighten test, line 34). *)
Definition lt_bound (q : Q) (b : bound) : bool :=
  match b with
  | Fin u => Qltb q u
  | PInf => true
  end.

(** [a <= b] on bounds. *)
Definition ble (a b : bound) : Prop :=
  match a, b with
  | _, PInf => True
  | PInf, Fin _ => False
  | Fin p, Fin q => p <= q
  end.

(** [MPI_MIN] on two bounds. *)
Definition bmin (a b : bound) : bound :=
  match a, b with
  | PInf, _ => b
  | _, PInf => a
  | Fin p, Fin q => if Qle_bool p q then Fin p else Fin q
  end.

(** ** Intervals *)

(** Modelled from the spec: the [interval] class is not part of the
    source file; the specification gives it as an ordered pair
    [(lo, hi)] with [left], [right], [mid = (lo+hi)/2] and
    [width = hi-lo]. *)
Record interval : Type := mkInterval { lo : Q; hi : Q }.

Definition left (i : interval) : Q := lo i.
Definition right (i : interval) : Q := hi i.
Definition mid (i : interval) : Q := (lo i + hi i) / 2.
Definition width (i : interval) : Q := hi i - lo i.

(** [interval(0)], the degenerate interval used in the search key of
    line 38. *)
Definition interval_of (q : Q) : interval := mkInterval q q.

(** A well-formed interval has [lo <= hi]. *)
Definition valid (i : interval) : Prop := lo i <= hi i.

(** A box is a pair of intervals ([pair<interval,interval>], line 115). *)
Definition box : Type := (interval * interval)%type.

(** The objective: an interval extension ([itvfun]). *)
Definition itvfun : Type := interval -> interval -> interval.

(** ** The box splitter (lines 8-17) *)

(** [split_box x y] returns the four out-parameters [(xl, xr, yl, yr)].
    The midpoints are the exact ones here; what is proved of [split_box]
    and of [minimize] below does not rest on the two halves being of
    equal width.  The midpoint as lines 11 and 12 store it, rounded to a
    [double], is the subject of [split_box_with] further down. *)
Definition split_box (x y : interval)
  : interval * interval * interval * interval :=
  let xm := mid x in
  let ym := mid y in
  let xl := mkInterval (left x) xm in
  let xr := mkInterval xm (right x) in
  let yl := mkInterval (left y) ym in
  let yr := mkInterval ym (right y) in
  (xl, xr, yl, yr).

(** The four boxes the callers build from the out-parameters, in the
    order of lines 76-79 and 147-150. *)
Definition quadrants (x y : interval) : list box :=
  let '(xl, xr, yl, yr) := split_box x y in
  [(xl, yl); (xl, yr); (xr, yl); (xr, yr)].

(** ** Minimizers and the minimizer list *)

(** Modelled from the spec: [minimizer] and [minimizer_list] are declared
    outside the source file.  A minimizer is the aggregate
    [{x, y, lb, ub}] (lines 38 and 47).  The list is an ordered container
    kept ascending by [lb], in which duplicates are permitted;
    [lower_bound] finds the first entry whose [lb] is not below the
    key's. *)
Record minimizer : Type :=
  mkMinimizer { mx : interval; my : interval; lb : Q; ub : Q }.

Definition minimizer_list : Type := list minimizer.

(** The container's ordering: ascending [lb]. *)
Definition minimizer_less (a b : minimizer) : bool := Qltb (lb a) (lb b).

(** [ml.insert(m)]: ordered insertion, after the entries that are not
    above [m]. *)
Fixpoint ml_insert (m : minimizer) (l : minimizer_list) : minimizer_list :=
  match l with
  | [] => [m]
  | e :: l' => if minimizer_less m e then m :: e :: l'
               else e :: ml_insert m l'
  end.

(** [ml.erase(ml.lower_bound(key), ml.end())]: what remains is the run of
    entries in front of the first one that is not less than [key]. *)
Fixpoint erase_from_lower_bound (key : minimizer) (l : minimizer_list)
  : minimizer_list :=
  match l with
  | [] => []
  | e :: l' => if minimizer_less e key
               then e :: erase_from_lower_bound key l'
               else []
  end.

(** The entries [ml.erase] removes: from [lower_bound(key)] to the end. *)
Fixpoint from_lower_bound (key : minimizer) (l : minimizer_list)
  : minimizer_list :=
  match l with
  | [] => []
  | e :: l' => if minimizer_less e key then from_lower_bound key l' else l
  end.

(** The container invariant: ascending [lb]. *)
Definition ml_sorted (l : minimizer_list) : Prop :=
  StronglySorted (fun a b => lb a <= lb b) l.

(** ** Search state and observable events *)

(** The two variables [minimize] receives by reference. *)
Record state : Type := mkState { min_ub : bound; ml : minimizer_list }.

(** What a run does, in order: entering a call of [minimize] on a box, and
    every write to the state, each with the state right after it. *)
Inductive event : Type :=
| EvCall (x y : interval)
| EvAssign (s : state)     (* after [min_ub = fxy.right()], line 35 *)
| EvErase (s : state)      (* after [ml.erase(...)], line 39 *)
| EvInsert (s : state)     (* after [ml.insert(...)], line 47 *)
| EvReduce (s : state).    (* after [MPI_Reduce] wrote [min_ub], line 72 *)

Definition trace : Type := list event.

(** The outcome of running with bounded call depth: the events so far, and
    the final state unless the depth budget ran out. *)
Definition result : Type := (trace * option state)%type.

Definition events (r : result) : trace := fst r.
Definition final (r : result) : option state := snd r.

(** Sequencing of two pieces of code that share the state. *)
Definition and_then (r : result) (k : state -> result) : result :=
  match r with
  | (t, None) => (t, None)
  | (t, Some s) => let '(t', o) := k s in (t ++ t', o)
  end.

Notation "r ;; k" := (and_then r k) (at level 61, left associativity).

(** ** The MPI environment of one process *)

(** [mpi_rank] is what [MPI_Comm_rank] returns; [mpi_others] are the values
    the other processes contribute to the [MPI_Reduce] of line 72. *)
Record mpi_world : Type :=
  mkWorld { mpi_rank : Z; mpi_others : list bound }.

(** [MPI_Reduce(&sendbuf, &recvbuf, 1, MPI_DOUBLE, MPI_MIN, 0, ...)]: the
    root receives the minimum of all contributions, the receive buffer of
    any other process is left as it was. *)
Definition MPI_Reduce_MIN (w : mpi_world) (sendbuf recvbuf : bound) : bound :=
  if (mpi_rank w =? 0)%Z then fold_right bmin sendbuf (mpi_others w)
  else recvbuf.

(** ** The branch-and-bound engine (lines 20-81) *)

(** Lines 34-40: a better upper bound replaces [min_ub] and the boxes it
    rules out are discarded. *)
Definition tighten (fxy : interval) (st : state) : result :=
  if lt_bound (right fxy) (min_ub st) then
    let st1 := mkState (Fin (right fxy)) (ml st) in
    let key := mkMinimizer (interval_of 0) (interval_of 0) (right fxy) 0 in
    let st2 := mkState (min_ub st1) (erase_from_lower_bound key (ml st1)) in
    ([EvAssign st1; EvErase st2], Some st2)
  else ([], Some st).

(** Line 47: the box is recorded as a potential minimizer. *)
Definition record_minimizer (x y fxy : interval) (st : state) : result :=
  let st' := mkState (min_ub st)
               (ml_insert (mkMinimizer x y (left fxy) (right fxy)) (ml st)) in
  ([EvInsert st'], Some st').

Section Engine.

Variable world : mpi_world.

(** [fuel] bounds the nesting of calls: a call needs one unit and hands
    the rest to the calls it makes. *)
Fixpoint minimize (fuel : nat) (f : itvfun) (x y : interval)
    (threshold : Q) (st : state) (use_mpi : bool) {struct fuel} : result :=
  match fuel with
  | O => ([], None)
  | S fuel' =>
    let fxy := f x y in
    if gt_bound (left fxy) (min_ub st) then ([EvCall x y], Some st)
    else
      ([EvCall x y], Some st) ;; tighten fxy ;; fun st1 =>
      if Qle_bool (width x) threshold then record_minimizer x y fxy st1
      else
        let '(xl, xr, yl, yr) := split_box x y in
        if use_mpi then
          let rank := mpi_rank world in
          let local0 := mkState (min_ub st1) (ml st1) in
          let on_rank (r : Z) (bx by_ : interval) (loc : state) : result :=
            if (rank =? r)%Z
            then minimize fuel' f bx by_ threshold loc false
            else ([], Some loc) in
          ([], Some local0)
          ;; on_rank 0%Z xl yl
          ;; on_rank 1%Z xl yr
          ;; on_rank 2%Z xr yl
          ;; on_rank 3%Z xr yr
          ;; fun loc =>
             let st' := mkState (MPI_Reduce_MIN world (min_ub loc) (min_ub st1))
                                (ml loc) in
             ([EvReduce st'], Some st')
        else
          ([], Some st1)
          ;; (fun s => minimize fuel' f xl yl threshold s false)
          ;; (fun s => minimize fuel' f xl yr threshold s false)
          ;; (fun s => minimize fuel' f xr yl threshold s false)
          ;; (fun s => minimize fuel' f xr yr threshold s false)
  end.

End Engine.

(** ** The call after lines 34-40 *)

(** Lines 42-80: what a call that was not pruned does once lines 34-40
    have left the state [st1].  [fuel'] is the depth budget of the calls
    it makes. *)
Definition rest_of_call (world : mpi_world) (fuel' : nat) (f : itvfun)
    (x y : interval) (threshold : Q) (use_mpi : bool) (st1 : state) : result :=
  if Qle_bool (width x) threshold then
    record_minimizer x y (f x y) st1
  else
    let '(xl, xr, yl, yr) := split_box x y in
    if use_mpi then
      let rank := mpi_rank world in
      let local0 := mkState (min_ub st1) (ml st1) in
      let on_rank (r : Z) (bx by_ : interval) (loc : state) : result :=
        if (rank =? r)%Z
        then minimize world fuel' f bx by_ threshold loc false
        else ([], Some loc) in
      ([], Some local0)
      ;; on_rank 0%Z xl yl
      ;; on_rank 1%Z xl yr
      ;; on_rank 2%Z xr yl
      ;; on_rank 3%Z xr yr
      ;; fun loc =>
           let st' := mkState (MPI_Reduce_MIN world (min_ub loc) (min_ub st1))
                              (ml loc) in
           ([EvReduce st'], Some st')
    else
      ([], Some st1)
      ;; (fun s => minimize world fuel' f xl yl threshold s false)
      ;; (fun s => minimize world fuel' f xl yr threshold s false)
      ;; (fun s => minimize world fuel' f xr yl threshold s false)
      ;; (fun s => minimize world fuel' f xr yr threshold s false).

(** ** The midpoint as a stored double (lines 11-12) *)

(** [split_box] with the value that lines 11 and 12 store in [xm] and
    [ym] given by [md]: [split_box] above is [split_box_with mid]. *)
Definition split_box_with (md : interval -> Q) (x y : interval)
  : interval * interval * interval * interval :=
  let xm := md x in
  let ym := md y in
  let xl := mkInterval (left x) xm in
  let xr := mkInterval xm (right x) in
  let yl := mkInterval (left y) ym in
  let yr := mkInterval ym (right y) in
  (xl, xr, yl, yr).

(** [minimize] with [split_box_with md] on line 54; every other line is
    as in [minimize]. *)
Fixpoint minimize_with (md : interval -> Q) (world : mpi_world) (fuel : nat)
    (f : itvfun) (x y : interval) (threshold : Q) (st : state)
    (use_mpi : bool) {struct fuel} : result :=
  match fuel with
  | O => ([], None)
  | S fuel' =>
    let fxy := f x y in
    if gt_bound (left fxy) (min_ub st) then
      ([EvCall x y], Some st)
    else
      ([EvCall x y], Some st) ;; tighten fxy ;; fun st1 =>
      if Qle_bool (width x) threshold then
        record_minimizer x y fxy st1
      else
        let '(xl, xr, yl, yr) := split_box_with md x y in
        if use_mpi then
          let rank := mpi_rank world in
          let local0 := mkState (min_ub st1) (ml st1) in
          let on_rank (r : Z) (bx by_ : interval) (loc : state) : result :=
            if (rank =? r)%Z
            then minimize_with md world fuel' f bx by_ threshold loc false
            else ([], Some loc) in
          ([], Some local0)
          ;; on_rank 0%Z xl yl
          ;; on_rank 1%Z xl yr
          ;; on_rank 2%Z xr yl
          ;; on_rank 3%Z xr yr
          ;; fun loc =>
               let st' := mkState (MPI_Reduce_MIN world (min_ub loc) (min_ub st1))
                                  (ml loc) in
               ([EvReduce st'], Some st')
        else
          ([], Some st1)
          ;; (fun s => minimize_with md world fuel' f xl yl threshold s false)
          ;; (fun s => minimize_with md world fuel' f xl yr threshold s false)
          ;; (fun s => minimize_with md world fuel' f xr yl threshold s false)
          ;; (fun s => minimize_with md world fuel' f xr yr threshold s false)
  end.

(** The binary64 number of an integer of magnitude below [2^63], rounded
    to nearest. *)
Definition double_of_Z (z : Z) : PrimFloat.float :=
  match z with
  | Z0 => PrimFloat.of_uint63 (Uint63.of_Z 0)
  | Zpos p => PrimFloat.of_uint63 (Uint63.of_Z (Zpos p))
  | Zneg p => PrimFloat.opp (PrimFloat.of_uint63 (Uint63.of_Z (Zpos p)))
  end.

(** The binary64 number of the rational [n / d], as the correctly rounded
    quotient of the doubles of [n] and [d].  For a rational that is a
    double with [n] and [d] below [2^63], the result is that double. *)
Definition double_of (q : Q) : PrimFloat.float :=
  PrimFloat.div (double_of_Z (Qnum q)) (double_of_Z (Zpos (Qden q))).

(** The exact value of a finite double; [0] stands for the values that
    are not finite numbers. *)
Definition value_of (d : PrimFloat.float) : Q :=
  match FloatOps.Prim2SF d with
  | SpecFloat.S754_finite s m e =>
      let v := Qred (inject_Z (Zpos m) * Qpower 2 e) in
      if s then Qred (- v) else v
  | _ => 0
  end.

(** Modelled from the spec: [x.mid()] is [(lo + hi) / 2]; here the sum
    and the quotient are the binary64 operations (round to nearest, ties
    to even), which is the value that [double xm = x.mid()] holds. *)
Definition mid_double (x : interval) : Q :=
  value_of (PrimFloat.div (PrimFloat.add (double_of (lo x)) (double_of (hi x)))
                          (double_of 2)).

(** [1 + 2^-52], the double that follows [1]. *)
Definition next_after_one : Q := (2 ^ 52 + 1) # (2 ^ 52).

(** The interval of two adjacent doubles, and the point interval at its
    left endpoint. *)
Definition narrow : interval := mkInterval 1 next_after_one.
Definition point_one : interval := mkInterval 1 1.

(** [2^-54], a threshold below the spacing of the doubles at [1]. *)
Definition tiny : Q := 1 # (2 ^ 54).

(** Every midpoint taken of [x] and of the x-intervals cut from it, down
    to [d] levels, is the exact midpoint: the double stored on line 11 is
    [(lo + hi) / 2]. *)
Fixpoint exact_mids (md : interval -> Q) (d : nat) (x : interval) : Prop :=
  match d with
  | O => True
  | S d' =>
      md x == mid x /\
      exact_mids md d' (mkInterval (left x) (md x)) /\
      exact_mids md d' (mkInterval (md x) (right x))
  end.

(** ** The rank-local part of [main] (lines 84-186) *)

(** Modelled from the spec: [opt_fun_t] is declared outside the source
    file; [main] uses its fields [f], [x] and [y], the objective and its
    initial box. *)
Record opt_fun_t : Type :=
  mkOptFun { fun_f : itvfun; fun_x : interval; fun_y : interval }.

(** Lines 101 and 105: [min_ub] is [+infinity], [minimums] is empty. *)
Definition initial_state : state := mkState PInf [].

(** What one process computes on [min_ub] and [minimums]: the calls of
    [minimize] it makes.  [fun_] and [precision] stand for what rank 0
    reads from the user.  On rank 0, the undeclared [p] of lines 161 and
    164 is read as the array [carre] filled on lines 147-150.  The other
    ranks (lines 170-178) make no call of [minimize] (a comment stands
    where it would be), so their [min_ub] and [minimums] stay as lines 101
    and 105 set them.  The point-to-point and broadcast calls
    ([MPI_Irecv], [MPI_Bcast], [MPI_Recv], [MPI_Send], [MPI_Wait]) write
    neither variable and are not part of this definition: it says what a
    process has computed, not that the process gets past them (ranks 1
    to 3 wait in the [MPI_Recv] of line 173 for a message that rank 0
    never sends). *)
Definition main (world : mpi_world) (fuel : nat) (fun_ : opt_fun_t)
    (precision : Q) : result :=
  let st := initial_state in
  let rank := mpi_rank world in
  if (rank =? 0)%Z then
    let '(xl, xr, yl, yr) := split_box (fun_x fun_) (fun_y fun_) in
    let carre := [(xl, yl); (xl, yr); (xr, yl); (xr, yr)] in
    let p := nth (Z.to_nat rank) carre (xl, yl) in
    minimize world fuel (fun_f fun_) (fst p) (snd p) precision st true
  else
    ([], Some st).

(** The value a process holds in [min_ub] when it is done. *)
Definition final_ub (r : result) : option bound :=
  match final r with
  | Some s => Some (min_ub s)
  | None => None
  end.

(** One sequential search over the whole initial box. *)
Definition sequential_ub (fuel : nat) (fun_ : opt_fun_t) (precision : Q)
  : option bound :=
  final_ub (minimize (mkWorld 0 []) fuel (fun_f fun_) (fun_x fun_) (fun_y fun_)
                     precision initial_state false).

(** The distributed run as the specification words it, for comparison
    with what the program does: the initial box is split once, each of
    the four workers searches its own quadrant with the sequential engine
    from [+infinity] and an empty list, and the result is the minimum of
    the four bounds. *)
Definition spec_distributed_ub (fuel : nat) (fun_ : opt_fun_t) (precision : Q)
  : option bound :=
  let worker (b : box) :=
    final_ub (minimize (mkWorld 0 []) fuel (fun_f fun_) (fst b) (snd b)
                       precision initial_state false) in
  fold_right
    (fun b acc =>
       match worker b, acc with
       | Some u, Some v => Some (bmin u v)
       | _, _ => None
       end)
    (Some PInf) (quadrants (fun_x fun_) (fun_y fun_)).

(** ** Order relations between a double and a bound, as propositions *)

(** [q > b]. *)
Definition above (q : Q) (b : bound) : Prop :=
  match b with Fin u => u < q | PInf => False end.

(** [q < b]. *)
Definition below (q : Q) (b : bound) : Prop :=
  match b with Fin u => q < u | PInf => True end.

(** [q <= b]. *)
Definition at_most (q : Q) (b : bound) : Prop :=
  match b with Fin u => q <= u | PInf => True end.

(** ** Points, boxes and areas *)

Definition in_itv (i : interval) (p : Q) : Prop := lo i <= p /\ p <= hi i.
Definition in_interior (i : interval) (p : Q) : Prop := lo i < p /\ p < hi i.

Definition in_box (b : box) (p : Q * Q) : Prop :=
  in_itv (fst b) (fst p) /\ in_itv (snd b) (snd p).
Definition in_box_interior (b : box) (p : Q * Q) : Prop :=
  in_interior (fst b) (fst p) /\ in_interior (snd b) (snd p).

Definition area (b : box) : Q := width (fst b) * width (snd b).

(** ** Reading a trace *)

(** The boxes on which [minimize] was entered, in order. *)
Fixpoint calls (tr : trace) : list box :=
  match tr with
  | [] => []
  | EvCall x y :: tr' => (x, y) :: calls tr'
  | _ :: tr' => calls tr'
  end.

(** The state an event leaves behind, when the event is a write. *)
Definition state_of (e : event) : option state :=
  match e with
  | EvCall _ _ => None
  | EvAssign s | EvErase s | EvInsert s | EvReduce s => Some s
  end.

(** The state after a mutation of the minimizer list (an erase or an
    insert). *)
Definition after_mutation (e : event) : option state :=
  match e with
  | EvErase s | EvInsert s => Some s
  | _ => None
  end.

(** The successive values of [min_ub] along a trace. *)
Fixpoint ubs (tr : trace) : list bound :=
  match tr with
  | [] => []
  | e :: tr' => match state_of e with
                | Some s => min_ub s :: ubs tr'
                | None => ubs tr'
                end
  end.

(** ** Invariants of the minimizer list *)

(** Every stored minimizer has [lb <= min_ub]. *)
Definition inv_le (st : state) : Prop :=
  Forall (fun m => at_most (lb m) (min_ub st)) (ml st).

(** Every stored minimizer has [lb < min_ub]. *)
Definition inv_lt (st : state) : Prop :=
  Forall (fun m => below (lb m) (min_ub st)) (ml st).

(** The objective returns a well-formed interval on every well-formed
    box. *)
Definition valid_fun (f : itvfun) : Prop :=
  forall x y, valid x -> valid y -> valid (f x y).

(** ** Objectives and boxes used in the examples *)

(** The natural interval extension of [(x, y) |-> x + y]. *)
Definition f_sum : itvfun :=
  fun x y => mkInterval (lo x + lo y) (hi x + hi y).

(** The natural interval extension of [(x, y) |-> - x]. *)
Definition f_negx : itvfun :=
  fun x y => mkInterval (- hi x) (- lo x).

(** The constant objective [1], enclosed exactly. *)
Definition f_one : itvfun := fun _ _ => mkInterval 1 1.

Definition itv (a b : Q) : interval := mkInterval a b.

(** A world in which the process is alone, for sequential runs. *)
Definition solo : mpi_world := mkWorld 0 [].

(** A piece of code started in [st] keeps the non-strict invariant: every
    state it leaves after touching the list satisfies it (strictly so
    after an erase), and so does the state it ends in. *)
Definition keeps_inv (st : state) (r : result) : Prop :=
  inv_le st ->
  (forall ev s, In ev (events r) -> after_mutation ev = Some s ->
                inv_le s /\ (ev = EvErase s -> inv_lt s)) /\
  (forall s, final r = Some s -> inv_le s).

(** ** Monotonicity of the bound *)

(** [chain a l]: starting from [a], each value of [l] is at most the one
    before it. *)
Fixpoint chain (a : bound) (l : list bound) : Prop :=
  match l with
  | [] => True
  | b :: l' => ble b a /\ chain b l'
  end.

(** The last value of [l], or [a] when [l] is empty. *)
Definition last_from (a : bound) (l : list bound) : bound :=
  fold_left (fun _ b => b) l a.

(** A piece of code started in [st] never raises [min_ub], and ends with
    the last value it wrote. *)
Definition mono (st : state) (r : result) : Prop :=
  chain (min_ub st) (ubs (events r)) /\
  (forall s, final r = Some s ->
             min_ub s = last_from (min_ub st) (ubs (events r))).

(** ** Depth of the recursion *)

(** [2^n] as a rational. *)
Fixpoint pow2 (n : nat) : Q :=
  match n with
  | O => 1
  | S k => 2 * pow2 k
  end.

(** [ceil (log2 q)] for a positive rational [q]: the least integer [k]
    with [q <= 2^k] (negative when [q <= 1/2]).  The logarithm of a
    non-positive number does not exist; the function returns [0] there. *)
Definition ceil_log2 (q : Q) : Z :=
  if Qle_bool q 0 then 0%Z
  else if Qle_bool 1 q then Z.log2_up (Qceiling q)
  else (- Z.log2 (Qfloor (/ q)))%Z.

(** The sequential run on [(x, y)], with [md] for the stored midpoints,
    finishes without nesting calls more than [d] levels below the initial
    one: a depth budget of [d + 1] is enough for it to return. *)
Definition completes_within (md : interval -> Q) (d : nat) (w : mpi_world)
    (f : itvfun) (x y : interval) (threshold : Q) (st : state) : Prop :=
  final (minimize_with md w (S d) f x y threshold st false) <> None.

(** ** What a run does to the stored minimizers *)

(** [a < b] on bounds. *)
Definition blt (a b : bound) : Prop :=
  match a, b with
  | Fin p, Fin q => p < q
  | Fin _, PInf => True
  | PInf, _ => False
  end.

(** A piece of code started in [st] either leaves [min_ub] as it is and
    keeps every stored minimizer, or ends with a strictly smaller
    [min_ub]. *)
Definition keeps_or_tightens (st : state) (r : result) : Prop :=
  forall s, final r = Some s ->
            (min_ub s = min_ub st /\ incl (ml st) (ml s)) \/
            blt (min_ub s) (min_ub st).

(** A piece of code started with the list in order leaves it in order. *)
Definition keeps_sorted (st : state) (r : result) : Prop :=
  ml_sorted (ml st) ->
  (forall ev s, In ev (events r) -> state_of ev = Some s -> ml_sorted (ml s)) /\
  (forall s, final r = Some s -> ml_sorted (ml s)).

(** ** Comparing two searches of one box *)

(** [a] lies inside [b]. *)
Definition sub_itv (a b : interval) : Prop := lo b <= lo a /\ hi a <= hi b.

(** The objective is monotone under box inclusion: on a smaller box its
    enclosure lies inside the enclosure on the larger one. *)
Definition incl_mono (f : itvfun) : Prop :=
  forall x y x' y',
    valid x' -> valid y' -> sub_itv x' x -> sub_itv y' y ->
    left (f x y) <= left (f x' y') /\ right (f x' y') <= right (f x y).

(** How the end states [sa] and [sb] of two searches of one box compare
    when the second started from the bound [b0], not above the bound the
    first started from: the second ends at or below the first, and no
    lower than the smaller of [b0] and the first's end. *)
Definition sim_rel (b0 : bound) (sa sb : state) : Prop :=
  ble (min_ub sb) (min_ub sa) /\ ble (bmin b0 (min_ub sa)) (min_ub sb).

(** ** Complete runs of the sequential engine *)

(** [run f t x y st tr s]: the sequential call of [minimize] on [(x, y)]
    with threshold [t], started in [st], returns in state [s] after the
    events [tr].  One rule per way through lines 28-81 with [use_mpi]
    unset. *)
Inductive run (f : itvfun) (t : Q)
  : interval -> interval -> state -> trace -> state -> Prop :=
| run_prune x y st :
    above (left (f x y)) (min_ub st) ->
    run f t x y st [EvCall x y] st
| run_leaf x y st tr1 st1 :
    at_most (left (f x y)) (min_ub st) ->
    tighten (f x y) st = (tr1, Some st1) ->
    width x <= t ->
    let s := mkState (min_ub st1)
               (ml_insert (mkMinimizer x y (left (f x y)) (right (f x y)))
                          (ml st1)) in
    run f t x y st (EvCall x y :: tr1 ++ [EvInsert s]) s
| run_split x y st tr1 st1 t1 s1 t2 s2 t3 s3 t4 s4 :
    at_most (left (f x y)) (min_ub st) ->
    tighten (f x y) st = (tr1, Some st1) ->
    t < width x ->
    run f t (mkInterval (left x) (mid x)) (mkInterval (left y) (mid y)) st1 t1 s1 ->
    run f t (mkInterval (left x) (mid x)) (mkInterval (mid y) (right y)) s1 t2 s2 ->
    run f t (mkInterval (mid x) (right x)) (mkInterval (left y) (mid y)) s2 t3 s3 ->
    run f t (mkInterval (mid x) (right x)) (mkInterval (mid y) (right y)) s3 t4 s4 ->
    run f t x y st (EvCall x y :: tr1 ++ t1 ++ t2 ++ t3 ++ t4) s4.

(** [b] lies inside [(x, y)]. *)
Definition inside_box (x y : interval) (b : box) : Prop :=
  sub_itv (fst b) x /\ sub_itv (snd b) y.

(** The minimizer the engine records for the box [b]. *)
Definition minimizer_of (f : itvfun) (b : box) : minimizer :=
  mkMinimizer (fst b) (snd b) (left (f (fst b) (snd b)))
              (right (f (fst b) (snd b))).

(** [f] encloses the real-valued objective [g]: over every box, the values
    of [g] lie between the endpoints [f] returns. *)
Definition encloses (f : itvfun) (g : Q * Q -> Q) : Prop :=
  forall x y p, in_box (x, y) p ->
                left (f x y) <= g p /\ g p <= right (f x y).

(** The point [p] lies in the box of a stored minimizer whose lower bound
    does not exceed the objective's value at [p]. *)
Definition covered (g : Q * Q -> Q) (st : state) (p : Q * Q) : Prop :=
  exists m, In m (ml st) /\ in_box (mx m, my m) p /\ lb m <= g p.

(** ** The quadrant of a process *)

(** Lines 63-70: the quadrant of [(x, y)] that the process of rank [rank]
    searches, if any. *)
Definition rank_quadrant (rank : Z) (x y : interval) : option box :=
  let '(xl, xr, yl, yr) := split_box x y in
  if (rank =? 0)%Z then Some (xl, yl)
  else if (rank =? 1)%Z then Some (xl, yr)
  else if (rank =? 2)%Z then Some (xr, yl)
  else if (rank =? 3)%Z then Some (xr, yr)
  else None.

(** The search a process makes between the split and the reduction. *)
Definition local_search (w : mpi_world) (fuel : nat) (f : itvfun)
    (x y : interval) (threshold : Q) (st : state) : result :=
  match rank_quadrant (mpi_rank w) x y with
  | Some b => minimize w fuel f (fst b) (snd b) threshold st false
  | None => ([], Some st)
  end.

(** The state line 72 leaves: the reduced bound, with the list of the
    local search. *)
Definition reduced (w : mpi_world) (st1 loc : state) : state :=
  mkState (MPI_Reduce_MIN w (min_ub loc) (min_ub st1)) (ml loc).

(** A trace without a reduction. *)
Definition no_reduce (tr : trace) : Prop := forall s, ~ In (EvReduce s) tr.

(** The objective [(x, y) |-> x + y] itself, which [f_sum] encloses. *)
Definition g_sum (p : Q * Q) : Q := fst p + snd p.

(** ** Runs used in the instances *)

(** The state a run ends in (the initial state stands for a run that does
    not return). *)
Definition end_of (r : result) : state :=
  match final r with
  | Some s => s
  | None => initial_state
  end.

(** The sequential search of [x + y] over [[0,2] x [0,2]] with threshold
    [1], from the initial state and from [min_ub = 3]. *)
Definition search_0_2 : result :=
  minimize solo 2 f_sum (itv 0 2) (itv 0 2) 1 initial_state false.

Definition search_0_2_from_3 : result :=
  minimize solo 2 f_sum (itv 0 2) (itv 0 2) 1 (mkState (Fin 3) []) false.

(** The call with [use_mpi] set on the same box, on rank 1. *)
Definition mpi_call_0_2 : result :=
  minimize (mkWorld 1 []) 3 f_sum (itv 0 2) (itv 0 2) 1 initial_state true.

(** * Basic facts *)

Lemma Qltb_lt (a b : Q) : Qltb a b = true <-> a < b.
Proof.
  unfold Qltb. rewrite negb_true_iff.
  destruct (Qle_bool b a) eqn:E.
  - apply Qle_bool_iff in E. split; [discriminate | intro H; lra].
  - split; [intros _ | reflexivity].
    destruct (Qlt_le_dec a b) as [H | H]; [exact H |].
    apply Qle_bool_iff in H. congruence.
Qed.

Lemma Qltb_ge (a b : Q) : Qltb a b = false <-> b <= a.
Proof.
  unfold Qltb. rewrite negb_false_iff. apply Qle_bool_iff.
Qed.

Lemma gt_bound_above q b : gt_bound q b = true <-> above q b.
Proof.
  destruct b; simpl; [apply Qltb_lt | split; [discriminate | tauto]].
Qed.

Lemma gt_bound_at_most q b : gt_bound q b = false <-> at_most q b.
Proof.
  destruct b; simpl; [apply Qltb_ge | tauto].
Qed.

Lemma lt_bound_below q b : lt_bound q b = true <-> below q b.
Proof.
  destruct b; simpl; [apply Qltb_lt | tauto].
Qed.

Lemma lt_bound_not_below q b : lt_bound q b = false <-> ~ below q b.
Proof.
  rewrite <- lt_bound_below. destruct (lt_bound q b); split; congruence.
Qed.

Lemma and_then_some t s k :
  (t, Some s) ;; k = (t ++ events (k s), final (k s)).
Proof. simpl. destruct (k s). reflexivity. Qed.

Lemma events_and_then r k :
  events (r ;; k) =
  match final r with
  | Some s => events r ++ events (k s)
  | None => events r
  end.
Proof.
  destruct r as [t [s |]]; simpl; [destruct (k s); reflexivity | reflexivity].
Qed.

Lemma final_and_then r k :
  final (r ;; k) =
  match final r with
  | Some s => final (k s)
  | None => None
  end.
Proof.
  destruct r as [t [s |]]; simpl; [destruct (k s); reflexivity | reflexivity].
Qed.

(** One step of the sequential engine, with the out-parameters of
    [split_box] spelled out. *)
Lemma minimize_step w n f x y t st :
  minimize w (S n) f x y t st false =
  if gt_bound (left (f x y)) (min_ub st) then ([EvCall x y], Some st)
  else
    ([EvCall x y], Some st) ;; tighten (f x y) ;; fun st1 =>
    if Qle_bool (width x) t then record_minimizer x y (f x y) st1
    else
      ([], Some st1)
      ;; (fun s => minimize w n f (mkInterval (left x) (mid x))
                             (mkInterval (left y) (mid y)) t s false)
      ;; (fun s => minimize w n f (mkInterval (left x) (mid x))
                             (mkInterval (mid y) (right y)) t s false)
      ;; (fun s => minimize w n f (mkInterval (mid x) (right x))
                             (mkInterval (left y) (mid y)) t s false)
      ;; (fun s => minimize w n f (mkInterval (mid x) (right x))
                             (mkInterval (mid y) (right y)) t s false).
Proof. reflexivity. Qed.

(** * Prune (lines 28-32) *)

(** C5.  When the enclosure's left endpoint is strictly above [min_ub],
    the call returns at once: nothing but the call itself is observed,
    and [min_ub] and the minimizer list are those it was given.  This
    holds for both values of [use_mpi]. *)
Theorem prune_returns_unchanged :
  forall w n f x y threshold st use_mpi,
    above (left (f x y)) (min_ub st) ->
    minimize w (S n) f x y threshold st use_mpi = ([EvCall x y], Some st).
Proof.
  intros w n f x y t st b H.
  apply gt_bound_above in H. simpl. rewrite H. reflexivity.
Qed.

(** * The box splitter *)

(** Linear arithmetic over the rationals, halving included. *)
Ltac qlra :=
  unfold mid, width, left, right, Qdiv in *;
  change (/ 2) with (1 # 2) in *; simpl lo in *; simpl hi in *; lra.

(** C6.  [split_box] yields [xl = [x.lo, x.mid]], [xr = [x.mid, x.hi]],
    [yl = [y.lo, y.mid]], [yr = [y.mid, y.hi]], from which the callers form
    the boxes [(xl,yl)], [(xl,yr)], [(xr,yl)], [(xr,yr)].  A point lies in
    the input box exactly when it lies in one of the four; no point lies in
    the interior of two of them; their areas add up to the area of the
    input.  Being a function of its two arguments, the splitter is
    deterministic and touches nothing else.  (No validity assumption on
    the input is needed.) *)
Theorem split_box_tiles :
  forall x y : interval,
    let xl := mkInterval (lo x) (mid x) in
    let xr := mkInterval (mid x) (hi x) in
    let yl := mkInterval (lo y) (mid y) in
    let yr := mkInterval (mid y) (hi y) in
    split_box x y = (xl, xr, yl, yr) /\
    quadrants x y = [(xl, yl); (xl, yr); (xr, yl); (xr, yr)] /\
    (forall p, in_box (x, y) p <->
               Exists (fun b => in_box b p) (quadrants x y)) /\
    ForallOrdPairs
      (fun b1 b2 => forall p, ~ (in_box_interior b1 p /\ in_box_interior b2 p))
      (quadrants x y) /\
    fold_right Qplus 0 (map area (quadrants x y)) == area (x, y).
Proof.
  intros x y xl xr yl yr.
  split; [reflexivity |]. split; [reflexivity |].
  unfold quadrants, split_box, left, right. fold xl xr yl yr.
  split; [| split].
  - intros [px py]. rewrite !Exists_cons, Exists_nil.
    unfold in_box, in_itv, xl, xr, yl, yr, mid; simpl.
    split.
    + intros [[Hx1 Hx2] [Hy1 Hy2]].
      destruct (Qlt_le_dec px ((lo x + hi x) / 2)) as [Hx | Hx];
        destruct (Qlt_le_dec py ((lo y + hi y) / 2)) as [Hy | Hy].
      * left. qlra.
      * right; left. qlra.
      * right; right; left. qlra.
      * right; right; right; left. qlra.
    + intros [H | [H | [H | [H | []]]]]; qlra.
  - repeat constructor;
      intros [px py]; unfold in_box_interior, in_interior, xl, xr, yl, yr;
      simpl; qlra.
  - unfold area, width, xl, xr, yl, yr, mid; simpl. field.
Qed.

(** * Tighten (lines 34-40) *)

Lemma erase_split key l :
  l = erase_from_lower_bound key l ++ from_lower_bound key l.
Proof.
  induction l as [| e l IH]; simpl; [reflexivity |].
  destruct (minimizer_less e key); simpl; [f_equal; exact IH | reflexivity].
Qed.

Lemma erase_kept_below key l :
  Forall (fun e => lb e < lb key) (erase_from_lower_bound key l).
Proof.
  induction l as [| e l IH]; simpl; [constructor |].
  destruct (minimizer_less e key) eqn:E; [| constructor].
  constructor; [apply Qltb_lt; exact E | exact IH].
Qed.

Lemma from_lower_bound_above key l :
  ml_sorted l -> Forall (fun e => lb key <= lb e) (from_lower_bound key l).
Proof.
  induction 1 as [| e l Hs IH Hall]; simpl; [constructor |].
  destruct (minimizer_less e key) eqn:E; [exact IH |].
  apply Qltb_ge in E.
  constructor; [exact E |].
  eapply Forall_impl; [| exact Hall]. simpl. intros a Ha. lra.
Qed.

Lemma filter_none {A} (p : A -> bool) (l : list A) :
  (forall a, In a l -> p a = false) -> filter p l = [].
Proof.
  induction l as [| a l IH]; simpl; intros H; [reflexivity |].
  rewrite (H a (or_introl eq_refl)). apply IH. intros b Hb. apply H. now right.
Qed.

Lemma filter_all {A} (p : A -> bool) (l : list A) :
  (forall a, In a l -> p a = true) -> filter p l = l.
Proof.
  induction l as [| a l IH]; simpl; intros H; [reflexivity |].
  rewrite (H a (or_introl eq_refl)). f_equal. apply IH. intros b Hb.
  apply H. now right.
Qed.

Lemma erase_is_filter key l :
  ml_sorted l ->
  erase_from_lower_bound key l = filter (fun e => minimizer_less e key) l.
Proof.
  induction 1 as [| e l Hs IH Hall]; simpl; [reflexivity |].
  destruct (minimizer_less e key) eqn:E; [f_equal; exact IH |].
  apply Qltb_ge in E.
  symmetry. apply filter_none. intros a Ha.
  rewrite Forall_forall in Hall. specialize (Hall a Ha). simpl in Hall.
  apply Qltb_ge. lra.
Qed.

Lemma from_is_filter key l :
  ml_sorted l ->
  from_lower_bound key l = filter (fun e => negb (minimizer_less e key)) l.
Proof.
  induction 1 as [| e l Hs IH Hall]; simpl; [reflexivity |].
  destruct (minimizer_less e key) eqn:E; simpl; [exact IH |].
  apply Qltb_ge in E. f_equal.
  symmetry. apply filter_all. intros a Ha.
  rewrite Forall_forall in Hall. specialize (Hall a Ha). simpl in Hall.
  apply negb_true_iff. apply Qltb_ge. lra.
Qed.

(** Every call that is not pruned runs lines 34-40 next, whatever
    [use_mpi] is. *)
Lemma minimize_shape w n f x y t st use_mpi :
  exists k,
    minimize w (S n) f x y t st use_mpi =
    if gt_bound (left (f x y)) (min_ub st) then ([EvCall x y], Some st)
    else ([EvCall x y], Some st) ;; tighten (f x y) ;; k.
Proof. eexists. reflexivity. Qed.

(** A call that is not pruned runs lines 34-40 and then the rest of the
    body, from the state that lines 34-40 leave. *)
Lemma minimize_unfold w n f x y t st use_mpi :
  minimize w (S n) f x y t st use_mpi =
  if gt_bound (left (f x y)) (min_ub st) then ([EvCall x y], Some st)
  else ([EvCall x y], Some st) ;; tighten (f x y)
       ;; rest_of_call w n f x y t use_mpi.
Proof. reflexivity. Qed.

(** C2.  When the enclosure's right endpoint [u] is strictly below
    [min_ub] (the enclosure being a well-formed interval and the list
    being in its ascending order), the call sets [min_ub] to [u] and
    erases the suffix that starts at the first entry with [lb >= u]: the
    list splits as [kept ++ evicted], [kept] holding exactly the entries
    with [lb < u] and [evicted] exactly those with [lb >= u].  The state
    lines 34-40 leave is [{u, kept}], and it is from this state that the
    call goes on: its trace is the call, the assignment, the erase, and
    then what lines 42-80 do when started with [min_ub = u] and the list
    [kept]; it ends where they end. *)
Theorem tighten_evicts_suffix :
  forall w n f x y threshold st use_mpi,
    valid (f x y) ->
    below (right (f x y)) (min_ub st) ->
    ml_sorted (ml st) ->
    let u := right (f x y) in
    exists kept evicted,
      ml st = kept ++ evicted /\
      kept = filter (fun e => Qltb (lb e) u) (ml st) /\
      evicted = filter (fun e => negb (Qltb (lb e) u)) (ml st) /\
      Forall (fun e => lb e < u) kept /\
      Forall (fun e => u <= lb e) evicted /\
      let s1 := mkState (Fin u) (ml st) in
      let s2 := mkState (Fin u) kept in
      tighten (f x y) st = ([EvAssign s1; EvErase s2], Some s2) /\
      minimize w (S n) f x y threshold st use_mpi =
        (EvCall x y :: EvAssign s1 :: EvErase s2
           :: events (rest_of_call w n f x y threshold use_mpi s2),
         final (rest_of_call w n f x y threshold use_mpi s2)).
Proof.
  intros w n f x y t st b Hv Hb Hs u.
  set (key := mkMinimizer (interval_of 0) (interval_of 0) u 0).
  exists (erase_from_lower_bound key (ml st)), (from_lower_bound key (ml st)).
  assert (Hnp : gt_bound (left (f x y)) (min_ub st) = false).
  { apply gt_bound_at_most. unfold valid in Hv. subst u.
    unfold left, right in *. destruct (min_ub st); simpl in *; [lra | exact I]. }
  assert (Ht : tighten (f x y) st =
               ([EvAssign (mkState (Fin u) (ml st));
                 EvErase (mkState (Fin u) (erase_from_lower_bound key (ml st)))],
                Some (mkState (Fin u) (erase_from_lower_bound key (ml st))))).
  { unfold tighten. apply lt_bound_below in Hb. rewrite Hb. reflexivity. }
  split; [apply erase_split |].
  split; [apply (erase_is_filter key); exact Hs |].
  split; [apply (from_is_filter key); exact Hs |].
  split; [apply (erase_kept_below key) |].
  split; [apply (from_lower_bound_above key); exact Hs |].
  cbv zeta. split; [exact Ht |].
  rewrite minimize_unfold, Hnp, and_then_some, Ht.
  cbn [events final fst snd]. rewrite and_then_some. reflexivity.
Qed.

(** * Stop condition (lines 45-49) *)

Lemma tighten_total fxy st :
  exists st1, tighten fxy st = (events (tighten fxy st), Some st1) /\
              calls (events (tighten fxy st)) = [].
Proof.
  unfold tighten. destruct (lt_bound (right fxy) (min_ub st));
    eexists; split; reflexivity.
Qed.

Lemma calls_app t1 t2 : calls (t1 ++ t2) = calls t1 ++ calls t2.
Proof.
  induction t1 as [| e t1 IH]; simpl; [reflexivity |].
  destruct e; simpl; rewrite IH; reflexivity.
Qed.

(** C4, as the code has it.  A call that is not pruned (the enclosure's
    left endpoint is at most [min_ub]) and whose x-interval has width at
    most [threshold] runs lines 34-40, inserts the minimizer
    [{x, y, fxy.left, fxy.right}] and returns: the only call observed is
    the call itself, and one unit of fuel is enough, so no further call is
    made.  Nothing is assumed about [y]: its width plays no part. *)
Theorem stop_inserts_and_returns :
  forall w n f x y threshold st use_mpi,
    at_most (left (f x y)) (min_ub st) ->
    width x <= threshold ->
    exists st1,
      final (tighten (f x y) st) = Some st1 /\
      let st' := mkState (min_ub st1)
                   (ml_insert (mkMinimizer x y (left (f x y)) (right (f x y)))
                              (ml st1)) in
      minimize w (S n) f x y threshold st use_mpi =
        (EvCall x y :: events (tighten (f x y) st) ++ [EvInsert st'], Some st') /\
      calls (events (minimize w (S n) f x y threshold st use_mpi)) = [(x, y)].
Proof.
  intros w n f x y t st b Hnp Hw.
  apply gt_bound_at_most in Hnp. apply Qle_bool_iff in Hw.
  destruct (tighten_total (f x y) st) as [st1 [Ht Hc]].
  exists st1. split; [rewrite Ht; reflexivity |].
  assert (E : minimize w (S n) f x y t st b =
              (EvCall x y :: events (tighten (f x y) st) ++
                 [EvInsert (mkState (min_ub st1)
                    (ml_insert (mkMinimizer x y (left (f x y)) (right (f x y)))
                               (ml st1)))],
               Some (mkState (min_ub st1)
                    (ml_insert (mkMinimizer x y (left (f x y)) (right (f x y)))
                               (ml st1))))).
  { cbn [minimize]. rewrite Hnp, and_then_some, Ht. cbn [events final fst snd].
    rewrite and_then_some, Hw. unfold record_minimizer.
    cbn [events final fst snd]. rewrite <- app_assoc. reflexivity. }
  cbv zeta. split; [exact E |].
  rewrite E. cbn [events fst calls]. rewrite calls_app, Hc. reflexivity.
Qed.

(** * The invariant of the minimizer list *)

Lemma Forall_ml_insert (P : minimizer -> Prop) m l :
  Forall P (ml_insert m l) <-> P m /\ Forall P l.
Proof.
  induction l as [| e l IH]; simpl.
  - split; [intros H; inversion H; auto | intros [H1 H2]; auto].
  - destruct (minimizer_less m e).
    + split; [intros H; inversion H; auto | intros [H1 H2]; auto].
    + split.
      * intros H. inversion H as [| ? ? He Hl]; subst.
        apply IH in Hl. destruct Hl. auto.
      * intros [Hm Hl]. inversion Hl as [| ? ? He Hl']; subst.
        constructor; [exact He | apply IH; auto].
Qed.

Lemma In_ml_insert m e l : In e (ml_insert m l) <-> e = m \/ In e l.
Proof.
  induction l as [| a l IH]; simpl.
  - intuition congruence.
  - destruct (minimizer_less m a); simpl; [intuition congruence |].
    rewrite IH. intuition congruence.
Qed.

Lemma below_at_most q b : below q b -> at_most q b.
Proof. destruct b; simpl; [intro; lra | auto]. Qed.

Lemma inv_lt_le st : inv_lt st -> inv_le st.
Proof.
  unfold inv_lt, inv_le. apply Forall_impl. intros m. apply below_at_most.
Qed.

Lemma keeps_inv_and_then st r k :
  keeps_inv st r ->
  (forall s, final r = Some s -> keeps_inv s (k s)) ->
  keeps_inv st (r ;; k).
Proof.
  intros Hr Hk Hst. destruct (Hr Hst) as [Hev Hfin].
  rewrite events_and_then, final_and_then.
  destruct (final r) as [s |] eqn:E.
  - destruct (Hk s eq_refl (Hfin s eq_refl)) as [Hev' Hfin'].
    split; [| exact Hfin'].
    intros ev s' Hin. apply in_app_or in Hin. destruct Hin; eauto.
  - split; [exact Hev | discriminate].
Qed.

Lemma keeps_inv_skip st : keeps_inv st ([], Some st).
Proof.
  intros Hst. split; [intros ev s [] | intros s [= <-]; exact Hst].
Qed.

(** Lines 34-40 leave the list strictly below the new bound, and a
    well-formed enclosure that was not pruned stays at or below it. *)
Lemma tighten_keeps_inv fxy st :
  keeps_inv st (tighten fxy st) /\
  (valid fxy -> at_most (left fxy) (min_ub st) ->
   forall s, final (tighten fxy st) = Some s -> at_most (left fxy) (min_ub s)).
Proof.
  unfold tighten.
  set (key := mkMinimizer (interval_of 0) (interval_of 0) (right fxy) 0).
  destruct (lt_bound (right fxy) (min_ub st)) eqn:E.
  - assert (Hlt : inv_lt (mkState (Fin (right fxy))
                            (erase_from_lower_bound key (ml st)))).
    { exact (erase_kept_below key (ml st)). }
    split.
    + intros _. cbn [events final fst snd]. split.
      * intros ev s [<- | [<- | []]]; [discriminate |].
        intros [= <-]. split; [apply inv_lt_le; exact Hlt | intros _; exact Hlt].
      * intros s [= <-]. apply inv_lt_le. exact Hlt.
    + intros Hv _ s [= <-]. exact Hv.
  - split; [apply keeps_inv_skip |].
    intros _ Hle s [= <-]. exact Hle.
Qed.

Lemma record_keeps_inv x y fxy st :
  at_most (left fxy) (min_ub st) ->
  keeps_inv st (record_minimizer x y fxy st).
Proof.
  intros Hle Hst.
  assert (H : inv_le (mkState (min_ub st)
                (ml_insert (mkMinimizer x y (left fxy) (right fxy)) (ml st)))).
  { apply Forall_ml_insert. split; [exact Hle | exact Hst]. }
  unfold record_minimizer. cbn [events final fst snd]. split.
  - intros ev s [<- | []] [= <-]. split; [exact H | discriminate].
  - intros s [= <-]. exact H.
Qed.

Lemma split_valid (x : interval) :
  valid x ->
  valid (mkInterval (left x) (mid x)) /\ valid (mkInterval (mid x) (right x)).
Proof. unfold valid. simpl. intros H. split; qlra. Qed.

(** The sequential engine keeps the non-strict invariant, at every depth
    budget (so also along a run that is cut short). *)
Lemma minimize_keeps_inv w f t :
  valid_fun f ->
  forall n x y st,
    valid x -> valid y -> keeps_inv st (minimize w n f x y t st false).
Proof.
  intros Hf. induction n as [| n IH]; intros x y st Hx Hy.
  - intros Hst. split; [intros ev s [] | discriminate].
  - rewrite minimize_step.
    destruct (gt_bound (left (f x y)) (min_ub st)) eqn:Hp.
    + intros Hst. split; [| intros s [= <-]; exact Hst].
      intros ev s [<- | []]; discriminate.
    + apply gt_bound_at_most in Hp.
      destruct (tighten_keeps_inv (f x y) st) as [Ht Hle].
      specialize (Hle (Hf x y Hx Hy) Hp).
      destruct (split_valid x Hx) as [Hxl Hxr].
      destruct (split_valid y Hy) as [Hyl Hyr].
      apply keeps_inv_and_then.
      * rewrite and_then_some. intros Hst. destruct (Ht Hst) as [Hev Hfin].
        cbn [events final fst snd]. split; [| exact Hfin].
        intros ev s [<- | Hin]; [discriminate | eauto].
      * rewrite and_then_some. cbn [final snd]. intros st1 Hst1.
        destruct (Qle_bool (width x) t).
        -- apply record_keeps_inv. apply Hle. exact Hst1.
        -- repeat apply keeps_inv_and_then;
             [apply keeps_inv_skip | intros; apply IH; assumption ..].
Qed.

(** C3, as the code has it.  Along a sequential run on a well-formed box,
    started in a state where every stored minimizer has [lb <= min_ub],
    with an objective that returns well-formed intervals, every state left
    by an insert or an erase has [lb <= min_ub] for every stored
    minimizer; after an erase the inequality is strict. *)
Theorem mutations_keep_lb_at_most_ub :
  forall w n f x y threshold st,
    valid_fun f ->
    valid x -> valid y ->
    inv_le st ->
    forall ev s,
      In ev (events (minimize w n f x y threshold st false)) ->
      after_mutation ev = Some s ->
      inv_le s /\ (ev = EvErase s -> inv_lt s).
Proof.
  intros w n f x y t st Hf Hx Hy Hst.
  exact (proj1 (minimize_keeps_inv w f t Hf n x y st Hx Hy Hst)).
Qed.

(** * The bound never increases *)

Lemma ble_refl a : ble a a.
Proof. destruct a; simpl; [lra | exact I]. Qed.

Lemma ble_trans a b c : ble a b -> ble b c -> ble a c.
Proof. destruct a, b, c; simpl; try tauto; intros; lra. Qed.

Lemma ubs_app t1 t2 : ubs (t1 ++ t2) = ubs t1 ++ ubs t2.
Proof.
  induction t1 as [| e t1 IH]; simpl; [reflexivity |].
  destruct (state_of e); simpl; rewrite IH; reflexivity.
Qed.

Lemma last_from_app a l1 l2 :
  last_from a (l1 ++ l2) = last_from (last_from a l1) l2.
Proof. unfold last_from. apply fold_left_app. Qed.

Lemma chain_app a l1 l2 :
  chain a l1 -> chain (last_from a l1) l2 -> chain a (l1 ++ l2).
Proof.
  revert a. induction l1 as [| b l1 IH]; intros a H1 H2; [exact H2 |].
  destruct H1 as [Hb H1]. split; [exact Hb |]. apply IH; assumption.
Qed.

Lemma chain_below a l : chain a l -> ble (last_from a l) a.
Proof.
  revert a. induction l as [| b l IH]; intros a H; [apply ble_refl |].
  destruct H as [Hb H]. apply ble_trans with b; [| exact Hb].
  apply (IH b H).
Qed.

Lemma chain_sorted a l :
  chain a l -> StronglySorted (fun earlier later => ble later earlier) (a :: l).
Proof.
  intros H. apply Sorted_StronglySorted.
  - intros p q r Hpq Hqr. eapply ble_trans; eassumption.
  - revert a H. induction l as [| b l IH]; intros a H.
    + constructor; constructor.
    + destruct H as [Hb H]. constructor; [apply IH; exact H |].
      constructor. exact Hb.
Qed.

Lemma mono_and_then st r k :
  mono st r ->
  (forall s, final r = Some s -> mono s (k s)) ->
  mono st (r ;; k).
Proof.
  intros [Hc Hl] Hk. unfold mono.
  rewrite events_and_then, final_and_then.
  destruct (final r) as [s |] eqn:E.
  - destruct (Hk s eq_refl) as [Hc' Hl'].
    rewrite (Hl s eq_refl) in Hc', Hl'.
    rewrite ubs_app, last_from_app. split; [| exact Hl'].
    apply chain_app; assumption.
  - split; [exact Hc | discriminate].
Qed.

Lemma mono_skip st t : ubs t = [] -> mono st (t, Some st).
Proof.
  intros H. unfold mono. cbn [events final fst snd]. rewrite H.
  split; [exact I | intros s [= <-]; reflexivity].
Qed.

Lemma tighten_mono fxy st : mono st (tighten fxy st).
Proof.
  unfold tighten. destruct (lt_bound (right fxy) (min_ub st)) eqn:E.
  - apply lt_bound_below in E. unfold mono. cbn.
    repeat split.
    + destruct (min_ub st); simpl in *; [lra | exact I].
    + lra.
    + intros s [= <-]. reflexivity.
  - apply mono_skip. reflexivity.
Qed.

Lemma record_mono x y fxy st : mono st (record_minimizer x y fxy st).
Proof.
  unfold record_minimizer, mono. cbn.
  repeat split; [apply ble_refl | intros s [= <-]; reflexivity].
Qed.

Lemma minimize_mono w f t :
  forall n x y st, mono st (minimize w n f x y t st false).
Proof.
  induction n as [| n IH]; intros x y st.
  - split; [exact I | discriminate].
  - rewrite minimize_step.
    destruct (gt_bound (left (f x y)) (min_ub st)).
    + apply mono_skip. reflexivity.
    + repeat apply mono_and_then.
      * apply mono_skip. reflexivity.
      * intros s [= <-]. apply tighten_mono.
      * intros st1 _. destruct (Qle_bool (width x) t).
        -- apply record_mono.
        -- repeat apply mono_and_then;
             [apply mono_skip; reflexivity | intros; apply IH ..].
Qed.

(** C8.  Along a sequential run, cut short or not, the successive values
    of [min_ub] (the one the run starts with, then the one after each
    write to the state) are non-increasing: every later value is at most
    every earlier one.  In particular the value at the end is at most the
    value at the start. *)
Theorem min_ub_never_increases :
  forall w n f x y threshold st,
    let r := minimize w n f x y threshold st false in
    StronglySorted (fun earlier later => ble later earlier)
                   (min_ub st :: ubs (events r)) /\
    (forall s, final r = Some s -> ble (min_ub s) (min_ub st)).
Proof.
  intros w n f x y t st r.
  destruct (minimize_mono w f t n x y st) as [Hc Hl]. fold r in Hc, Hl.
  split; [apply chain_sorted; exact Hc |].
  intros s Hs. rewrite (Hl s Hs). apply chain_below. exact Hc.
Qed.

(** * Depth budgets and the base-2 logarithm *)

Lemma pow2_pos n : 0 < pow2 n.
Proof. induction n as [| n IH]; simpl; lra. Qed.

Lemma pow2_inject n : pow2 n == inject_Z (2 ^ Z.of_nat n).
Proof.
  induction n as [| n IH]; [reflexivity |].
  rewrite Nat2Z.inj_succ, Z.pow_succ_r by apply Nat2Z.is_nonneg.
  rewrite inject_Z_mult. simpl pow2. rewrite IH. reflexivity.
Qed.

Lemma final_and_then_some r k :
  final r <> None -> (forall s, final r = Some s -> final (k s) <> None) ->
  final (r ;; k) <> None.
Proof.
  intros Hr Hk. rewrite final_and_then.
  destruct (final r) as [s |]; [apply Hk; reflexivity | exact Hr].
Qed.

Lemma tighten_returns fxy st : final (tighten fxy st) <> None.
Proof.
  unfold tighten. destruct (lt_bound (right fxy) (min_ub st)); discriminate.
Qed.

Lemma and_then_cong r r' k k' :
  (final r <> None -> r' = r) ->
  (forall s, final r = Some s -> final (k s) <> None -> k' s = k s) ->
  final (r ;; k) <> None -> r' ;; k' = r ;; k.
Proof.
  intros Hr Hk H. rewrite final_and_then in H.
  destruct (final r) as [s |] eqn:E; [| contradiction].
  rewrite Hr by discriminate.
  destruct r as [tr o]. simpl in E. subst o. simpl.
  rewrite (Hk s eq_refl H). reflexivity.
Qed.

(** A run that returns is not changed by a larger depth budget. *)
Lemma minimize_more_fuel w f t :
  forall n m x y st,
    (n <= m)%nat ->
    final (minimize w n f x y t st false) <> None ->
    minimize w m f x y t st false = minimize w n f x y t st false.
Proof.
  induction n as [| n IH]; intros m x y st Hnm; [intros H; now elim H |].
  destruct m as [| m]; [lia |]. apply le_S_n in Hnm.
  rewrite !minimize_step.
  destruct (gt_bound (left (f x y)) (min_ub st)); [reflexivity |].
  apply and_then_cong; [reflexivity |].
  intros st1 _. destruct (Qle_bool (width x) t); [reflexivity |].
  repeat apply and_then_cong; try reflexivity;
    intros s _; apply IH; exact Hnm.
Qed.

Lemma ceil_log2_upper q : q <= pow2 (Z.to_nat (ceil_log2 q)).
Proof.
  unfold ceil_log2.
  destruct (Qle_bool q 0) eqn:E0.
  - apply Qle_bool_iff in E0. simpl. lra.
  - destruct (Qle_bool 1 q) eqn:E1.
    + apply Qle_bool_iff in E1.
      rewrite pow2_inject, Z2Nat.id by apply Z.log2_up_nonneg.
      apply Qle_trans with (inject_Z (Qceiling q)); [apply Qle_ceiling |].
      rewrite <- Zle_Qle. apply Z.log2_log2_up_spec.
      apply Z.lt_le_trans with (Qceiling 1); [reflexivity |].
      apply Qceiling_resp_le. exact E1.
    + assert (H1 : q < 1).
      { apply Qltb_lt. unfold Qltb. rewrite E1. reflexivity. }
      assert (Hk : (- Z.log2 (Qfloor (/ q)) <= 0)%Z).
      { pose proof (Z.log2_nonneg (Qfloor (/ q))). lia. }
      replace (Z.to_nat (- Z.log2 (Qfloor (/ q)))) with 0%nat by lia.
      simpl. lra.
Qed.

Lemma pow2Z_Q k : (0 <= k)%Z -> 2 ^ k == inject_Z (2 ^ k).
Proof. intros H. rewrite (Zpower_Qpower 2 k H). reflexivity. Qed.

Lemma pow2Z_pos k : 0 < 2 ^ k.
Proof. apply Qpower_0_lt. reflexivity. Qed.

(** [ceil_log2 q] is the ceiling of the base-2 logarithm of a positive
    [q]: the one integer [k] with [2^(k-1) < q <= 2^k]. *)
Lemma ceil_log2_spec q :
  0 < q -> 2 ^ (ceil_log2 q - 1) < q /\ q <= 2 ^ ceil_log2 q.
Proof.
  intros Hq. unfold ceil_log2.
  destruct (Qle_bool q 0) eqn:E0; [apply Qle_bool_iff in E0; lra |].
  clear E0. destruct (Qle_bool 1 q) eqn:E1.
  - apply Qle_bool_iff in E1.
    set (a := Qceiling q).
    assert (Ha : (1 <= a)%Z).
    { change 1%Z with (Qceiling 1). apply Qceiling_resp_le. exact E1. }
    pose proof (Z.log2_up_nonneg a) as Hk.
    split.
    + destruct (Z.eq_dec a 1) as [-> | Hne].
      * change (2 ^ (Z.log2_up 1 - 1)) with (1 # 2). lra.
      * assert (H1 : (1 < a)%Z) by lia.
        pose proof (Z.log2_up_spec a H1) as [Hlo _].
        pose proof (Z.log2_up_pos a H1) as Hpos.
        rewrite pow2Z_Q by lia.
        apply Qle_lt_trans with (inject_Z (a - 1)); [| apply Qceiling_lt].
        rewrite <- Zle_Qle. unfold Z.pred in Hlo.
        replace (Z.log2_up a - 1)%Z with (Z.log2_up a + -1)%Z by lia. lia.
    + rewrite pow2Z_Q by exact Hk.
      apply Qle_trans with (inject_Z a); [apply Qle_ceiling |].
      rewrite <- Zle_Qle. apply Z.log2_log2_up_spec. lia.
  - assert (H1 : q < 1).
    { apply Qltb_lt. unfold Qltb. rewrite E1. reflexivity. }
    clear E1. set (b := Qfloor (/ q)).
    assert (Hinv : 1 < / q).
    { apply Qlt_shift_inv_l; [exact Hq | lra]. }
    assert (Hb : (1 <= b)%Z).
    { change 1%Z with (Qfloor 1). apply Qfloor_resp_le. lra. }
    pose proof (Z.log2_nonneg b) as Hm.
    assert (Hb0 : (0 < b)%Z) by lia.
    pose proof (Z.log2_spec b Hb0) as [Hlo Hhi].
    assert (Hqq : q * / q == 1) by (apply Qmult_inv_r; lra).
    split.
    + replace (- Z.log2 b - 1)%Z with (- (Z.succ (Z.log2 b)))%Z by lia.
      rewrite Qpower_opp.
      apply Qlt_shift_inv_r; [apply pow2Z_pos |].
      rewrite pow2Z_Q by lia.
      assert (H2 : / q < inject_Z (2 ^ Z.succ (Z.log2 b))).
      { apply Qlt_le_trans with (inject_Z (b + 1)); [apply Qlt_floor |].
        rewrite <- Zle_Qle. lia. }
      rewrite <- Hqq. apply Qmult_lt_l; assumption.
    + rewrite Qpower_opp.
      apply Qle_shift_inv_l; [apply pow2Z_pos |].
      rewrite pow2Z_Q by lia.
      assert (H2 : inject_Z (2 ^ Z.log2 b) <= / q).
      { apply Qle_trans with (inject_Z b); [| apply Qfloor_le].
        rewrite <- Zle_Qle. exact Hlo. }
      rewrite <- Hqq. apply Qmult_le_l; assumption.
Qed.

(** * Minimizers whose lower bound equals the bound *)

Lemma blt_irrefl a : ~ blt a a.
Proof. destruct a; simpl; [lra | tauto]. Qed.

Lemma blt_trans a b c : blt a b -> blt b c -> blt a c.
Proof. destruct a, b, c; simpl; try tauto; intros; lra. Qed.

Lemma kot_and_then st r k :
  keeps_or_tightens st r ->
  (forall s, final r = Some s -> keeps_or_tightens s (k s)) ->
  keeps_or_tightens st (r ;; k).
Proof.
  intros Hr Hk s2. rewrite final_and_then.
  destruct (final r) as [s1 |] eqn:E; [| discriminate].
  intros H2. specialize (Hr s1 E). specialize (Hk s1 eq_refl s2 H2).
  destruct Hr as [[Hr1 Hr2] | Hr], Hk as [[Hk1 Hk2] | Hk].
  - left. split; [congruence | eapply incl_tran; eassumption].
  - right. rewrite <- Hr1. exact Hk.
  - right. rewrite Hk1. exact Hr.
  - right. eapply blt_trans; eassumption.
Qed.

Lemma kot_skip st t : keeps_or_tightens st (t, Some st).
Proof. intros s [= <-]. left. split; [reflexivity | apply incl_refl]. Qed.

Lemma tighten_kot fxy st : keeps_or_tightens st (tighten fxy st).
Proof.
  unfold tighten. destruct (lt_bound (right fxy) (min_ub st)) eqn:E.
  - apply lt_bound_below in E. intros s [= <-]. right. simpl.
    destruct (min_ub st); simpl in *; [exact E | exact I].
  - apply kot_skip.
Qed.

Lemma record_kot x y fxy st :
  keeps_or_tightens st (record_minimizer x y fxy st).
Proof.
  intros s [= <-]. left. split; [reflexivity |].
  intros m Hm. apply In_ml_insert. now right.
Qed.

Lemma minimize_kot w f t :
  forall n x y st, keeps_or_tightens st (minimize w n f x y t st false).
Proof.
  induction n as [| n IH]; intros x y st; [intros s; discriminate |].
  rewrite minimize_step.
  destruct (gt_bound (left (f x y)) (min_ub st)); [apply kot_skip |].
  repeat apply kot_and_then.
  - apply kot_skip.
  - intros s [= <-]. apply tighten_kot.
  - intros st1 _. destruct (Qle_bool (width x) t).
    + apply record_kot.
    + repeat apply kot_and_then; [apply kot_skip | intros; apply IH ..].
Qed.

(** C10.  A box whose enclosure's left endpoint equals [min_ub] is not
    pruned, and at leaf width it is inserted with [lb] equal to [min_ub]
    (boxes and enclosures being well formed, the bound is not tightened
    either).
    The state then breaks [lb < min_ub] but satisfies [lb <= min_ub], and
    any further search from it ends in a state that satisfies
    [lb <= min_ub] and, as long as it ends with the same [min_ub], still
    holds that minimizer. *)
Theorem equal_lower_bound_is_kept :
  forall w n f x y threshold st u,
    valid_fun f ->
    valid x -> valid y ->
    inv_le st ->
    min_ub st = Fin u ->
    left (f x y) == u ->
    width x <= threshold ->
    let cand := mkMinimizer x y (left (f x y)) (right (f x y)) in
    let st' := mkState (min_ub st) (ml_insert cand (ml st)) in
    minimize w (S n) f x y threshold st false
      = ([EvCall x y; EvInsert st'], Some st') /\
    In cand (ml st') /\
    ~ inv_lt st' /\
    inv_le st' /\
    forall m x2 y2 s,
      valid x2 -> valid y2 ->
      final (minimize w m f x2 y2 threshold st' false) = Some s ->
      inv_le s /\ (min_ub s = min_ub st' -> In cand (ml s)).
Proof.
  intros w n f x y t st u Hf Hx Hy Hst Hu Hl Hw cand st'.
  assert (Hin : In cand (ml st')) by (apply In_ml_insert; now left).
  assert (Hle : inv_le st').
  { apply Forall_ml_insert. split; [| exact Hst].
    simpl. rewrite Hu. simpl. lra. }
  split; [| split; [exact Hin | split; [| split; [exact Hle |]]]].
  - rewrite minimize_step.
    assert (Hp : gt_bound (left (f x y)) (min_ub st) = false).
    { rewrite Hu. simpl. apply Qltb_ge. lra. }
    assert (Ht : tighten (f x y) st = ([], Some st)).
    { unfold tighten. rewrite Hu. simpl.
      replace (Qltb (right (f x y)) u) with false; [reflexivity |].
      symmetry. apply Qltb_ge. pose proof (Hf x y Hx Hy) as Hv.
      unfold valid, left, right in *. lra. }
    apply Qle_bool_iff in Hw.
    rewrite Hp, and_then_some, Ht. cbn [events final fst snd].
    rewrite and_then_some, Hw. reflexivity.
  - intros H. unfold inv_lt in H. rewrite Forall_forall in H.
    specialize (H cand Hin). simpl in H. rewrite Hu in H. simpl in H. lra.
  - intros m x2 y2 s Hx2 Hy2 Hs. split.
    + exact (proj2 (minimize_keeps_inv w f t Hf m x2 y2 st' Hx2 Hy2 Hle) s Hs).
    + intros Heq.
      destruct (minimize_kot w f t m x2 y2 st' s Hs) as [[_ Hincl] | Hlt].
      * apply Hincl. exact Hin.
      * rewrite Heq in Hlt. elim (blt_irrefl _ Hlt).
Qed.

(** * The list stays in ascending order *)

Lemma ml_insert_sorted m l : ml_sorted l -> ml_sorted (ml_insert m l).
Proof.
  induction 1 as [| e l Hs IH Hall]; simpl; [repeat constructor |].
  destruct (minimizer_less m e) eqn:E.
  - apply Qltb_lt in E. constructor; [constructor; assumption |].
    constructor; [lra |].
    eapply Forall_impl; [| exact Hall]. simpl. intros a Ha. lra.
  - apply Qltb_ge in E. constructor; [exact IH |].
    apply Forall_ml_insert. split; [exact E | exact Hall].
Qed.

Lemma erase_sorted key l :
  ml_sorted l -> ml_sorted (erase_from_lower_bound key l).
Proof.
  induction 1 as [| e l Hs IH Hall]; simpl; [constructor |].
  destruct (minimizer_less e key); [| constructor].
  constructor; [exact IH |].
  rewrite Forall_forall in *. intros a Ha. apply Hall.
  rewrite (erase_split key l). apply in_or_app. now left.
Qed.

Lemma keeps_sorted_and_then st r k :
  keeps_sorted st r ->
  (forall s, final r = Some s -> keeps_sorted s (k s)) ->
  keeps_sorted st (r ;; k).
Proof.
  intros Hr Hk Hst. destruct (Hr Hst) as [Hev Hfin].
  rewrite events_and_then, final_and_then.
  destruct (final r) as [s |] eqn:E.
  - destruct (Hk s eq_refl (Hfin s eq_refl)) as [Hev' Hfin'].
    split; [| exact Hfin'].
    intros ev s' Hin. apply in_app_or in Hin. destruct Hin; eauto.
  - split; [exact Hev | discriminate].
Qed.

Lemma keeps_sorted_skip st t :
  (forall ev, In ev t -> state_of ev = None) -> keeps_sorted st (t, Some st).
Proof.
  intros Ht Hst. cbn [events final fst snd]. split.
  - intros ev s Hin Hs. rewrite (Ht ev Hin) in Hs. discriminate.
  - intros s [= <-]. exact Hst.
Qed.

Lemma tighten_keeps_sorted fxy st : keeps_sorted st (tighten fxy st).
Proof.
  unfold tighten. destruct (lt_bound (right fxy) (min_ub st)).
  - intros Hst. cbn [events final fst snd]. split.
    + intros ev s [<- | [<- | []]] [= <-]; simpl;
        [exact Hst | apply erase_sorted; exact Hst].
    + intros s [= <-]. simpl. apply erase_sorted. exact Hst.
  - apply keeps_sorted_skip. intros ev [].
Qed.

Lemma record_keeps_sorted x y fxy st :
  keeps_sorted st (record_minimizer x y fxy st).
Proof.
  intros Hst. unfold record_minimizer. cbn [events final fst snd]. split.
  - intros ev s [<- | []] [= <-]. simpl. apply ml_insert_sorted. exact Hst.
  - intros s [= <-]. simpl. apply ml_insert_sorted. exact Hst.
Qed.

(** Every state of a sequential run has the list in ascending order when
    the run starts that way, as the container guarantees. *)
Lemma minimize_keeps_sorted w f t :
  forall n x y st, keeps_sorted st (minimize w n f x y t st false).
Proof.
  induction n as [| n IH]; intros x y st.
  - intros Hst. split; [intros ev s [] | discriminate].
  - rewrite minimize_step.
    destruct (gt_bound (left (f x y)) (min_ub st)).
    + apply keeps_sorted_skip. intros ev [<- | []]. reflexivity.
    + repeat apply keeps_sorted_and_then.
      * apply keeps_sorted_skip. intros ev [<- | []]. reflexivity.
      * intros s [= <-]. apply tighten_keeps_sorted.
      * intros st1 _. destruct (Qle_bool (width x) t).
        -- apply record_keeps_sorted.
        -- repeat apply keeps_sorted_and_then;
             [apply keeps_sorted_skip; intros ev [] | intros; apply IH ..].
Qed.

(** * Concrete runs *)

Lemma f_sum_valid : valid_fun f_sum.
Proof. intros x y Hx Hy. unfold valid in *. simpl. lra. Qed.

Lemma f_one_valid : valid_fun f_one.
Proof. intros x y _ _. unfold valid. simpl. lra. Qed.

Lemma f_negx_valid : valid_fun f_negx.
Proof. intros x y Hx Hy. unfold valid in *. simpl. lra. Qed.

(** C3 as stated fails: the search of [x + y] over [[0,2] x [0,2]] with
    threshold [1] ends with an insert that leaves a minimizer whose [lb]
    equals [min_ub] (the box [[1,2] x [1,2]], enclosure [[2,4]], while
    [min_ub] is [2]). *)
Lemma strict_invariant_counterexample :
  let r := minimize solo 2 f_sum (itv 0 2) (itv 0 2) 1 initial_state false in
  exists s,
    final r = Some s /\
    In (EvInsert s) (events r) /\
    after_mutation (EvInsert s) = Some s /\
    ~ inv_lt s.
Proof.
  cbv zeta. eexists. split; [lazy; reflexivity |].
  split; [lazy; repeat (first [left; reflexivity | right]) |].
  split; [reflexivity |].
  unfold inv_lt. simpl. intros H.
  do 3 apply Forall_inv_tail in H. apply Forall_inv in H.
  simpl in H. lra.
Qed.

(** C4 as stated fails on a pruned box: with [min_ub = 2], the box
    [[0,1] x [3,4]] has x-width [1 <= threshold] but enclosure [[3,5]];
    the call returns at the prune test and inserts nothing. *)
Lemma stop_counterexample :
  let x := itv 0 1 in
  let y := itv 3 4 in
  let st := mkState (Fin 2) [mkMinimizer (itv 0 1) (itv 0 1) 0 2] in
  let r := minimize solo 1 f_sum x y 1 st false in
  width x <= 1 /\
  r = ([EvCall x y], Some st) /\
  (forall s, ~ In (EvInsert s) (events r)) /\
  final r = Some st.
Proof.
  cbv zeta. split; [unfold width; simpl; lra |].
  split; [reflexivity |]. split; [| reflexivity].
  intros s [H | []]. discriminate H.
Qed.

(** * Instances of the theorems *)

(** The tighten step on [x + y] over [[0,1] x [0,1]] (enclosure [[0,2]])
    with [min_ub = 3] and stored lower bounds [0], [2] and [5]: the entry
    with [lb = 0] stays, the other two go, and the call goes on (here to
    the insert of line 47) with [min_ub = 2] and the one entry kept. *)
Lemma tighten_evicts_suffix_witness :
  let x := itv 0 1 in
  let st := mkState (Fin 3) [mkMinimizer x x 0 1; mkMinimizer x x 2 3;
                             mkMinimizer x x 5 6] in
  valid (f_sum x x) /\
  below (right (f_sum x x)) (min_ub st) /\
  ml_sorted (ml st) /\
  exists kept evicted,
    ml st = kept ++ evicted /\
    kept = filter (fun e => Qltb (lb e) (right (f_sum x x))) (ml st) /\
    evicted = filter (fun e => negb (Qltb (lb e) (right (f_sum x x)))) (ml st) /\
    Forall (fun e => lb e < right (f_sum x x)) kept /\
    Forall (fun e => right (f_sum x x) <= lb e) evicted /\
    let s1 := mkState (Fin (right (f_sum x x))) (ml st) in
    let s2 := mkState (Fin (right (f_sum x x))) kept in
    tighten (f_sum x x) st = ([EvAssign s1; EvErase s2], Some s2) /\
    minimize solo 1 f_sum x x 1 st false =
      (EvCall x x :: EvAssign s1 :: EvErase s2
         :: events (rest_of_call solo 0 f_sum x x 1 false s2),
       final (rest_of_call solo 0 f_sum x x 1 false s2)).
Proof.
  cbv zeta.
  assert (H1 : valid (f_sum (itv 0 1) (itv 0 1))) by (unfold valid; simpl; lra).
  assert (H2 : below (right (f_sum (itv 0 1) (itv 0 1))) (Fin 3))
    by (simpl; lra).
  assert (H3 : ml_sorted [mkMinimizer (itv 0 1) (itv 0 1) 0 1;
                          mkMinimizer (itv 0 1) (itv 0 1) 2 3;
                          mkMinimizer (itv 0 1) (itv 0 1) 5 6])
    by (repeat constructor; simpl; lra).
  split; [exact H1 |]. split; [exact H2 |]. split; [exact H3 |].
  exact (tighten_evicts_suffix solo 0 f_sum (itv 0 1) (itv 0 1) 1
           (mkState (Fin 3) _) false H1 H2 H3).
Defined.

(** The one-call search of the constant objective [1]: the state after
    its insert satisfies [lb <= min_ub]. *)
Lemma mutations_keep_lb_at_most_ub_witness :
  let x := itv 0 1 in
  let s := mkState (Fin 1) [mkMinimizer x x 1 1] in
  valid_fun f_one /\ valid x /\ inv_le initial_state /\
  In (EvInsert s) (events (minimize solo 1 f_one x x 1 initial_state false)) /\
  after_mutation (EvInsert s) = Some s /\
  (inv_le s /\ (EvInsert s = EvErase s -> inv_lt s)).
Proof.
  cbv zeta.
  assert (Hx : valid (itv 0 1)) by (unfold valid; simpl; lra).
  assert (H0 : inv_le initial_state) by constructor.
  assert (Hin : In (EvInsert (mkState (Fin 1) [mkMinimizer (itv 0 1) (itv 0 1) 1 1]))
                   (events (minimize solo 1 f_one (itv 0 1) (itv 0 1) 1
                                     initial_state false)))
    by (simpl; auto).
  split; [exact f_one_valid |]. split; [exact Hx |]. split; [exact H0 |].
  split; [exact Hin |]. split; [reflexivity |].
  exact (mutations_keep_lb_at_most_ub solo 1 f_one (itv 0 1) (itv 0 1) 1
           initial_state f_one_valid Hx Hx H0 _ _ Hin eq_refl).
Defined.

(** A leaf box that is not pruned: [[0,1] x [0,1]] from the initial
    state. *)
Lemma stop_inserts_and_returns_witness :
  let x := itv 0 1 in
  at_most (left (f_sum x x)) (min_ub initial_state) /\
  width x <= 1 /\
  exists st1,
    final (tighten (f_sum x x) initial_state) = Some st1 /\
    let st' := mkState (min_ub st1)
                 (ml_insert (mkMinimizer x x (left (f_sum x x)) (right (f_sum x x)))
                            (ml st1)) in
    minimize solo 1 f_sum x x 1 initial_state false =
      (EvCall x x :: events (tighten (f_sum x x) initial_state) ++ [EvInsert st'],
       Some st') /\
    calls (events (minimize solo 1 f_sum x x 1 initial_state false)) = [(x, x)].
Proof.
  cbv zeta.
  assert (H1 : at_most (left (f_sum (itv 0 1) (itv 0 1))) (min_ub initial_state))
    by exact I.
  assert (H2 : width (itv 0 1) <= 1) by (unfold width; simpl; lra).
  split; [exact H1 |]. split; [exact H2 |].
  exact (stop_inserts_and_returns solo 0 f_sum (itv 0 1) (itv 0 1) 1
           initial_state false H1 H2).
Defined.

(** A pruned box: [[0,1] x [3,4]] (enclosure [[3,5]]) with [min_ub = 2]. *)
Lemma prune_returns_unchanged_witness :
  let x := itv 0 1 in
  let y := itv 3 4 in
  let st := mkState (Fin 2) [mkMinimizer x x 0 2] in
  above (left (f_sum x y)) (min_ub st) /\
  minimize solo 1 f_sum x y 1 st false = ([EvCall x y], Some st).
Proof.
  cbv zeta.
  assert (H : above (left (f_sum (itv 0 1) (itv 3 4))) (Fin 2)) by (simpl; lra).
  split; [exact H |].
  exact (prune_returns_unchanged solo 0 f_sum (itv 0 1) (itv 3 4) 1
           (mkState (Fin 2) _) false H).
Defined.

(** The box [[1,2] x [1,2]] (enclosure [[2,4]]) met with [min_ub = 2]. *)
Lemma equal_lower_bound_is_kept_witness :
  let x0 := itv 0 1 in
  let x := itv 1 2 in
  let st := mkState (Fin 2) [mkMinimizer x0 x0 0 2] in
  let cand := mkMinimizer x x (left (f_sum x x)) (right (f_sum x x)) in
  let st' := mkState (min_ub st) (ml_insert cand (ml st)) in
  valid_fun f_sum /\ valid x /\ inv_le st /\ min_ub st = Fin 2 /\
  left (f_sum x x) == 2 /\ width x <= 1 /\
  minimize solo 1 f_sum x x 1 st false = ([EvCall x x; EvInsert st'], Some st') /\
  In cand (ml st') /\
  ~ inv_lt st' /\
  inv_le st' /\
  forall m x2 y2 s,
    valid x2 -> valid y2 ->
    final (minimize solo m f_sum x2 y2 1 st' false) = Some s ->
    inv_le s /\ (min_ub s = min_ub st' -> In cand (ml s)).
Proof.
  cbv zeta.
  assert (Hx : valid (itv 1 2)) by (unfold valid; simpl; lra).
  assert (Hi : inv_le (mkState (Fin 2) [mkMinimizer (itv 0 1) (itv 0 1) 0 2]))
    by (repeat constructor; simpl; lra).
  assert (Hl : left (f_sum (itv 1 2) (itv 1 2)) == 2) by reflexivity.
  assert (Hw : width (itv 1 2) <= 1) by (unfold width; simpl; lra).
  split; [exact f_sum_valid |]. split; [exact Hx |]. split; [exact Hi |].
  split; [reflexivity |]. split; [exact Hl |]. split; [exact Hw |].
  exact (equal_lower_bound_is_kept solo 0 f_sum (itv 1 2) (itv 1 2) 1
           (mkState (Fin 2) _) 2 f_sum_valid Hx Hx Hi eq_refl Hl Hw).
Defined.

(** * Comparing searches of one box *)

Lemma final_and_then_inv r k s :
  final (r ;; k) = Some s ->
  exists s1, final r = Some s1 /\ final (k s1) = Some s.
Proof.
  rewrite final_and_then. destruct (final r) as [s1 |]; [| discriminate].
  intros H. exists s1. split; [reflexivity | exact H].
Qed.

Lemma at_most_trans c b1 b2 : at_most c b1 -> ble b1 b2 -> at_most c b2.
Proof. destruct b1, b2; simpl; try tauto; intros; lra. Qed.

Lemma split_sub (x : interval) :
  valid x ->
  sub_itv (mkInterval (left x) (mid x)) x /\
  sub_itv (mkInterval (mid x) (right x)) x.
Proof. unfold valid, sub_itv. simpl. intros H. repeat split; qlra. Qed.

(** The bound after lines 34-40. *)
Lemma tighten_final fxy st s :
  final (tighten fxy st) = Some s ->
  min_ub s = (if lt_bound (right fxy) (min_ub st) then Fin (right fxy) else min_ub st).
Proof.
  unfold tighten. destruct (lt_bound (right fxy) (min_ub st)); intros [= <-]; reflexivity.
Qed.

Lemma record_final x y fxy st s :
  final (record_minimizer x y fxy st) = Some s -> min_ub s = min_ub st.
Proof. intros [= <-]. reflexivity. Qed.

(** A search never ends below a value that is at most the bound it
    started from and at most the left endpoint of the enclosure of its
    box. *)
Lemma minimize_above_left w f t :
  valid_fun f -> incl_mono f ->
  forall n x y st s c,
    valid x -> valid y ->
    final (minimize w n f x y t st false) = Some s ->
    at_most c (min_ub st) -> c <= left (f x y) ->
    at_most c (min_ub s).
Proof.
  intros Hf Hm. induction n as [| n IH]; intros x y st s c Hx Hy; [discriminate |].
  rewrite minimize_step.
  destruct (gt_bound (left (f x y)) (min_ub st)) eqn:Hp.
  - intros [= <-] Hc _. exact Hc.
  - intros Hfin Hc Hl.
    apply final_and_then_inv in Hfin. destruct Hfin as [st1 [H1 H2]].
    rewrite and_then_some in H1. cbn [final snd] in H1.
    apply tighten_final in H1.
    assert (Hc1 : at_most c (min_ub st1)).
    { rewrite H1. destruct (lt_bound (right (f x y)) (min_ub st)); [| exact Hc].
      simpl. pose proof (Hf x y Hx Hy) as Hv. unfold valid, left, right in *. lra. }
    destruct (Qle_bool (width x) t).
    + apply record_final in H2. rewrite H2. exact Hc1.
    + destruct (split_valid x Hx) as [Hxl Hxr].
      destruct (split_valid y Hy) as [Hyl Hyr].
      destruct (split_sub x Hx) as [Sxl Sxr].
      destruct (split_sub y Hy) as [Syl Syr].
      apply final_and_then_inv in H2. destruct H2 as [s4 [H2 H5]].
      apply final_and_then_inv in H2. destruct H2 as [s3 [H2 H4]].
      apply final_and_then_inv in H2. destruct H2 as [s2 [H2 H3]].
      apply final_and_then_inv in H2. destruct H2 as [s1' [H2 H2']].
      injection H2 as <-.
      assert (L : forall x' y', valid x' -> valid y' -> sub_itv x' x -> sub_itv y' y -> c <= left (f x' y')).
      { intros x' y' V1 V2 S1 S2. destruct (Hm x y x' y' V1 V2 S1 S2). lra. }
      eapply IH in H2'; [| assumption | assumption | exact Hc1 | apply L; assumption].
      eapply IH in H3; [| assumption | assumption | exact H2' | apply L; assumption].
      eapply IH in H4; [| assumption | assumption | exact H3 | apply L; assumption].
      eapply IH in H5; [| assumption | assumption | exact H4 | apply L; assumption].
      exact H5.
Qed.

Lemma Qle_bool_false p q : Qle_bool p q = false -> q < p.
Proof. intros E. apply Qltb_lt. unfold Qltb. rewrite E. reflexivity. Qed.

Lemma bmin_le_l a b : ble (bmin a b) a.
Proof.
  destruct a as [p |], b as [q |]; simpl; try exact I; try lra.
  destruct (Qle_bool p q) eqn:E; simpl; [lra |].
  apply Qle_bool_false in E. lra.
Qed.

Lemma bmin_le_r a b : ble (bmin a b) b.
Proof.
  destruct a as [p |], b as [q |]; simpl; try exact I; try lra.
  destruct (Qle_bool p q) eqn:E; simpl; [| lra].
  apply Qle_bool_iff in E. exact E.
Qed.

Lemma bmin_glb a b c : ble c a -> ble c b -> ble c (bmin a b).
Proof.
  destruct a as [p |], b as [q |], c as [r |]; simpl; try tauto.
  destruct (Qle_bool p q); simpl; tauto.
Qed.

Lemma minimize_final_le w f t n x y st s :
  final (minimize w n f x y t st false) = Some s -> ble (min_ub s) (min_ub st).
Proof.
  intros Hs. destruct (minimize_mono w f t n x y st) as [Hc Hl].
  rewrite (Hl s Hs). apply chain_below. exact Hc.
Qed.

Lemma sim_rel_step b0 sa sb sa' sb' :
  sim_rel b0 sa sb ->
  ble (min_ub sa') (min_ub sa) ->
  sim_rel (min_ub sb) sa' sb' ->
  sim_rel b0 sa' sb'.
Proof.
  intros [H1 H2] Hm [H3 H4]. split; [exact H3 |].
  eapply ble_trans; [| exact H4].
  apply bmin_glb; [| apply bmin_le_r].
  eapply ble_trans; [| exact H2].
  apply bmin_glb; [apply bmin_le_l |].
  eapply ble_trans; [apply bmin_le_r | exact Hm].
Qed.

Lemma at_most_ble u b : at_most u b <-> ble (Fin u) b.
Proof. destruct b; simpl; tauto. Qed.

(** Two searches of one box, the second from a bound that is not above
    the first's. *)
Lemma minimize_sim w f t :
  valid_fun f -> incl_mono f ->
  forall n x y sa sb sa' sb',
    valid x -> valid y ->
    ble (min_ub sb) (min_ub sa) ->
    final (minimize w n f x y t sa false) = Some sa' ->
    final (minimize w n f x y t sb false) = Some sb' ->
    sim_rel (min_ub sb) sa' sb'.
Proof.
  intros Hf Hm. induction n as [| n IH]; intros x y sa sb sa' sb' Hx Hy Hab Ha Hb;
    [discriminate |].
  pose proof (fun c => minimize_above_left w f t Hf Hm (S n) x y sa sa' c
                        Hx Hy Ha) as HA.
  rewrite minimize_step in Ha, Hb.
  destruct (gt_bound (left (f x y)) (min_ub sb)) eqn:Hpb.
  - injection Hb as <-. apply gt_bound_above in Hpb.
    split; [| apply bmin_le_l].
    destruct (min_ub sb) as [u |] eqn:Eu; [| contradiction]. simpl in Hpb.
    apply at_most_ble. apply HA.
    + apply at_most_ble. exact Hab.
    + lra.
  - clear HA. apply gt_bound_at_most in Hpb.
    assert (Hpa : gt_bound (left (f x y)) (min_ub sa) = false).
    { apply gt_bound_at_most. eapply at_most_trans; eassumption. }
    rewrite Hpa in Ha.
    apply final_and_then_inv in Ha. destruct Ha as [a1 [Ha1 Ha]].
    apply final_and_then_inv in Hb. destruct Hb as [b1 [Hb1 Hb]].
    rewrite and_then_some in Ha1, Hb1. cbn [final snd] in Ha1, Hb1.
    apply tighten_final in Ha1. apply tighten_final in Hb1.
    assert (R1 : sim_rel (min_ub sb) a1 b1).
    { unfold sim_rel. rewrite Ha1, Hb1.
      destruct (lt_bound (right (f x y)) (min_ub sb)) eqn:Eb;
        destruct (lt_bound (right (f x y)) (min_ub sa)) eqn:Ea.
      - split; [apply ble_refl | apply bmin_le_r].
      - exfalso. apply lt_bound_below in Eb. apply lt_bound_not_below in Ea.
        apply Ea. destruct (min_ub sa), (min_ub sb); simpl in *; try tauto; lra.
      - split; [| apply bmin_le_l].
        apply lt_bound_not_below in Eb.
        destruct (min_ub sb); simpl in *; [lra | tauto].
      - split; [exact Hab | apply bmin_le_l]. }
    destruct (Qle_bool (width x) t).
    + apply record_final in Ha, Hb. unfold sim_rel in *. rewrite Ha, Hb. exact R1.
    + destruct (split_valid x Hx) as [Hxl Hxr].
      destruct (split_valid y Hy) as [Hyl Hyr].
      apply final_and_then_inv in Ha. destruct Ha as [a4 [Ha Ha5]].
      apply final_and_then_inv in Ha. destruct Ha as [a3 [Ha Ha4]].
      apply final_and_then_inv in Ha. destruct Ha as [a2 [Ha Ha3]].
      apply final_and_then_inv in Ha. destruct Ha as [a1' [Ha Ha2]].
      injection Ha as <-.
      apply final_and_then_inv in Hb. destruct Hb as [b4 [Hb Hb5]].
      apply final_and_then_inv in Hb. destruct Hb as [b3 [Hb Hb4]].
      apply final_and_then_inv in Hb. destruct Hb as [b2 [Hb Hb3]].
      apply final_and_then_inv in Hb. destruct Hb as [b1' [Hb Hb2]].
      injection Hb as <-.
      assert (R2 : sim_rel (min_ub sb) a2 b2).
      { eapply sim_rel_step; [exact R1 | eapply minimize_final_le; exact Ha2 |].
        eapply IH; [| | apply R1 | exact Ha2 | exact Hb2]; assumption. }
      assert (R3 : sim_rel (min_ub sb) a3 b3).
      { eapply sim_rel_step; [exact R2 | eapply minimize_final_le; exact Ha3 |].
        eapply IH; [| | apply R2 | exact Ha3 | exact Hb3]; assumption. }
      assert (R4 : sim_rel (min_ub sb) a4 b4).
      { eapply sim_rel_step; [exact R3 | eapply minimize_final_le; exact Ha4 |].
        eapply IH; [| | apply R3 | exact Ha4 | exact Hb4]; assumption. }
      eapply sim_rel_step; [exact R4 | eapply minimize_final_le; exact Ha5 |].
      eapply IH; [| | apply R4 | exact Ha5 | exact Hb5]; assumption.
Qed.

(** A search that is not pruned at its root ends at or below the right
    endpoint of the enclosure of its box. *)
Lemma minimize_below_right w f t n x y st s :
  final (minimize w (S n) f x y t st false) = Some s ->
  gt_bound (left (f x y)) (min_ub st) = false ->
  ble (min_ub s) (Fin (right (f x y))).
Proof.
  intros Hs Hp. rewrite minimize_step, Hp in Hs.
  apply final_and_then_inv in Hs. destruct Hs as [s1 [H1 H2]].
  rewrite and_then_some in H1. cbn [final snd] in H1.
  apply tighten_final in H1.
  assert (Hb : ble (min_ub s1) (Fin (right (f x y)))).
  { rewrite H1. destruct (lt_bound (right (f x y)) (min_ub st)) eqn:E.
    - apply ble_refl.
    - apply lt_bound_not_below in E.
      destruct (min_ub st); simpl in *; [lra | tauto]. }
  eapply ble_trans; [| exact Hb].
  destruct (Qle_bool (width x) t).
  - apply record_final in H2. rewrite H2. apply ble_refl.
  - apply final_and_then_inv in H2. destruct H2 as [s4 [H2 H5]].
    apply final_and_then_inv in H2. destruct H2 as [s3 [H2 H4]].
    apply final_and_then_inv in H2. destruct H2 as [s2 [H2 H3]].
    apply final_and_then_inv in H2. destruct H2 as [s1' [H2 H2']].
    injection H2 as <-.
    apply minimize_final_le in H2', H3, H4, H5.
    eauto using ble_trans.
Qed.

Lemma ble_PInf a : ble a PInf.
Proof. destruct a; exact I. Qed.

Lemma final_ub_some r s : final r = Some s -> final_ub r = Some (min_ub s).
Proof. unfold final_ub. intros ->. reflexivity. Qed.

Lemma width_nonneg x : valid x -> 0 <= width x.
Proof. unfold valid, width. lra. Qed.

(** * Termination and the midpoint stored in a double *)

Lemma and_then_congr r r' k k' :
  r = r' -> (forall s, k s = k' s) -> r ;; k = r' ;; k'.
Proof.
  intros -> H. destruct r' as [tr [s |]]; simpl; [rewrite H |]; reflexivity.
Qed.

(** With the exact midpoint, the engine over a stored midpoint is
    [minimize]. *)
Lemma minimize_with_mid w :
  forall n f x y t st use_mpi,
    minimize_with mid w n f x y t st use_mpi = minimize w n f x y t st use_mpi.
Proof.
  induction n as [| n IH]; intros f x y t st b; [reflexivity |].
  cbn [minimize_with minimize].
  destruct (gt_bound (left (f x y)) (min_ub st)); [reflexivity |].
  apply and_then_congr; [reflexivity |]. intros st1.
  destruct (Qle_bool (width x) t); [reflexivity |].
  unfold split_box_with, split_box.
  destruct b.
  - apply and_then_congr; [| intros loc; reflexivity].
    apply and_then_congr;
      [| intros loc; destruct (mpi_rank w =? 3)%Z; [apply IH | reflexivity]].
    apply and_then_congr;
      [| intros loc; destruct (mpi_rank w =? 2)%Z; [apply IH | reflexivity]].
    apply and_then_congr;
      [| intros loc; destruct (mpi_rank w =? 1)%Z; [apply IH | reflexivity]].
    apply and_then_congr;
      [| intros loc; destruct (mpi_rank w =? 0)%Z; [apply IH | reflexivity]].
    reflexivity.
  - repeat (apply and_then_congr; [| intros s; apply IH]). reflexivity.
Qed.

(** One step of the sequential engine over a stored midpoint. *)
Lemma minimize_with_step md w n f x y t st :
  minimize_with md w (S n) f x y t st false =
  if gt_bound (left (f x y)) (min_ub st) then ([EvCall x y], Some st)
  else
    ([EvCall x y], Some st) ;; tighten (f x y) ;; fun st1 =>
    if Qle_bool (width x) t then record_minimizer x y (f x y) st1
    else
      ([], Some st1)
      ;; (fun s => minimize_with md w n f (mkInterval (left x) (md x))
                                  (mkInterval (left y) (md y)) t s false)
      ;; (fun s => minimize_with md w n f (mkInterval (left x) (md x))
                                  (mkInterval (md y) (right y)) t s false)
      ;; (fun s => minimize_with md w n f (mkInterval (md x) (right x))
                                  (mkInterval (left y) (md y)) t s false)
      ;; (fun s => minimize_with md w n f (mkInterval (md x) (right x))
                                  (mkInterval (md y) (right y)) t s false).
Proof. reflexivity. Qed.

(** ** Exact midpoints: the depth is logarithmic *)

(** A box whose x-width is at most [threshold * 2^n], and whose
    x-midpoints are exact down to [n] levels, is searched to the end with
    [n] levels of nesting. *)
Lemma minimize_with_returns md w f t :
  forall n x y st,
    width x <= t * pow2 n ->
    exact_mids md n x ->
    final (minimize_with md w (S n) f x y t st false) <> None.
Proof.
  induction n as [| n IH]; intros x y st Hw He; rewrite minimize_with_step;
    (destruct (gt_bound (left (f x y)) (min_ub st)); [discriminate |]);
    (apply final_and_then_some;
     [apply final_and_then_some;
      [discriminate | intros; apply tighten_returns] |]);
    intros st1 _; destruct (Qle_bool (width x) t) eqn:E; try discriminate.
  - exfalso. simpl in Hw. rewrite Qmult_1_r in Hw.
    apply Qle_bool_iff in Hw. congruence.
  - destruct He as [Em [El Er]]. simpl pow2 in Hw.
    assert (Wl : width (mkInterval (left x) (md x)) <= t * pow2 n) by qlra.
    assert (Wr : width (mkInterval (md x) (right x)) <= t * pow2 n) by qlra.
    repeat apply final_and_then_some; try discriminate;
      intros; apply IH; assumption.
Qed.

(** A run that returns is not changed by a larger depth budget. *)
Lemma minimize_with_more_fuel md w f t :
  forall n m x y st,
    (n <= m)%nat ->
    final (minimize_with md w n f x y t st false) <> None ->
    minimize_with md w m f x y t st false = minimize_with md w n f x y t st false.
Proof.
  induction n as [| n IH]; intros m x y st Hnm; [intros H; now elim H |].
  destruct m as [| m]; [lia |]. apply le_S_n in Hnm.
  rewrite !minimize_with_step.
  destruct (gt_bound (left (f x y)) (min_ub st)); [reflexivity |].
  apply and_then_cong; [reflexivity |].
  intros st1 _. destruct (Qle_bool (width x) t); [reflexivity |].
  repeat apply and_then_cong; try reflexivity;
    intros s _; apply IH; exact Hnm.
Qed.

(** C7, as the code has it.  Let [d] be
    [max 0 (ceil (log2 (x.width / threshold)))] for a strictly positive
    threshold.  If the midpoints that line 11 stores for [x] and for the
    x-intervals cut from it are exact down to [d] levels, the sequential
    engine returns, and it does so without nesting calls more than [d]
    levels below the initial call: that depth budget, and every larger
    one, yields one and the same trace and final state.  Nothing is said
    of a run in which a stored midpoint is rounded. *)
Theorem terminates_within_log_depth :
  forall md w f x y threshold st,
    0 < threshold ->
    exact_mids md (Z.to_nat (Z.max 0 (ceil_log2 (width x / threshold)))) x ->
    let d := Z.to_nat (Z.max 0 (ceil_log2 (width x / threshold))) in
    completes_within md d w f x y threshold st /\
    exists tr s,
      forall m, (S d <= m)%nat ->
                minimize_with md w m f x y threshold st false = (tr, Some s).
Proof.
  intros md w f x y t st Ht He d. fold d in He.
  assert (Hc : completes_within md d w f x y t st).
  { apply minimize_with_returns; [| exact He].
    assert (Hd : d = Z.to_nat (ceil_log2 (width x / t))) by (unfold d; lia).
    pose proof (ceil_log2_upper (width x / t)) as Hu. rewrite <- Hd in Hu.
    apply (Qmult_le_compat_r _ _ t) in Hu; [| lra].
    rewrite (Qmult_comm (width x / t)), Qmult_div_r in Hu by lra.
    rewrite Qmult_comm. exact Hu. }
  split; [exact Hc |].
  unfold completes_within in Hc.
  destruct (minimize_with md w (S d) f x y t st false) as [tr [s |]] eqn:E;
    [| now elim Hc].
  exists tr, s. intros m Hm. rewrite <- E.
  apply minimize_with_more_fuel; [exact Hm |]. rewrite E. discriminate.
Qed.

(** ** A rounded midpoint: the search of two adjacent doubles *)

Lemma tighten_keeps_at_most c fxy st :
  at_most c (min_ub st) -> c <= right fxy ->
  forall s, final (tighten fxy st) = Some s -> at_most c (min_ub s).
Proof.
  intros Hc Hr s. unfold tighten.
  destruct (lt_bound (right fxy) (min_ub st)); intros [= <-]; assumption.
Qed.

Lemma final_none_and_then r k : final r = None -> final (r ;; k) = None.
Proof. intros H. rewrite final_and_then, H. reflexivity. Qed.

(** A call of [x + y] on a box whose x-interval is the point [[1,1]]
    returns at the stop test and leaves [min_ub] at [2] or above. *)
Lemma point_call_keeps_bound md w n y st s :
  2 <= right (f_sum point_one y) ->
  at_most 2 (min_ub st) ->
  final (minimize_with md w n f_sum point_one y tiny st false) = Some s ->
  at_most 2 (min_ub s).
Proof.
  intros Hr Hst. destruct n as [| n]; [discriminate |].
  rewrite minimize_with_step.
  destruct (gt_bound (left (f_sum point_one y)) (min_ub st));
    [intros [= <-]; exact Hst |].
  intros H. apply final_and_then_inv in H. destruct H as [st1 [H1 H2]].
  rewrite and_then_some in H1. cbn [final snd] in H1.
  apply (tighten_keeps_at_most 2 _ _ Hst Hr) in H1.
  change (Qle_bool (width point_one) tiny) with true in H2.
  injection H2 as <-. exact H1.
Qed.

(** When the midpoint stored for [narrow] is its left endpoint [1], the
    third sub-box of [narrow x [1,1]] is that box again, met with a
    [min_ub] that does not prune it: the call on it returns for no depth
    budget. *)
Lemma narrow_point_never_returns md w :
  md narrow = 1 -> md point_one = 1 ->
  forall n st,
    at_most 2 (min_ub st) ->
    final (minimize_with md w n f_sum narrow point_one tiny st false) = None.
Proof.
  intros Hn Hp. induction n as [| n IH]; intros st Hst; [reflexivity |].
  rewrite minimize_with_step.
  assert (Hg : gt_bound (left (f_sum narrow point_one)) (min_ub st) = false).
  { apply gt_bound_at_most. destruct (min_ub st); simpl in *; [lra | exact I]. }
  rewrite Hg, and_then_some, final_and_then. cbn [final snd].
  destruct (final (tighten (f_sum narrow point_one) st)) as [st1 |] eqn:Et;
    [| reflexivity].
  assert (H1 : at_most 2 (min_ub st1)).
  { apply (tighten_keeps_at_most 2 _ _ Hst) in Et; [exact Et |].
    apply Qle_bool_iff. reflexivity. }
  change (Qle_bool (width narrow) tiny) with false. cbv iota.
  rewrite Hn, Hp.
  change (mkInterval (left narrow) 1) with point_one.
  change (mkInterval 1 (right narrow)) with narrow.
  change (mkInterval (left point_one) 1) with point_one.
  change (mkInterval 1 (right point_one)) with point_one.
  apply final_none_and_then. rewrite final_and_then.
  match goal with
  | |- match ?r with _ => _ end = _ => destruct r as [s2 |] eqn:E2
  end; [| reflexivity].
  apply IH.
  apply final_and_then_inv in E2. destruct E2 as [s1 [E1 E2]].
  rewrite and_then_some in E1. cbn [final snd app] in E1.
  assert (Hr : 2 <= right (f_sum point_one point_one))
    by (apply Qle_bool_iff; reflexivity).
  apply (point_call_keeps_bound md w n point_one s1 s2 Hr); [| exact E2].
  apply (point_call_keeps_bound md w n point_one st1 s1 Hr H1 E1).
Qed.

(** The search of [narrow x narrow] reaches [narrow x [1,1]] as its third
    sub-box and so returns for no depth budget. *)
Lemma narrow_never_returns md w :
  md narrow = 1 -> md point_one = 1 ->
  forall n,
    final (minimize_with md w n f_sum narrow narrow tiny initial_state false)
    = None.
Proof.
  intros Hn Hp [| n]; [reflexivity |].
  rewrite minimize_with_step.
  cbn [initial_state min_ub gt_bound].
  rewrite and_then_some, final_and_then. cbn [final snd].
  destruct (final (tighten (f_sum narrow narrow) initial_state)) as [st1 |] eqn:Et;
    [| reflexivity].
  assert (H1 : at_most 2 (min_ub st1)).
  { apply (tighten_keeps_at_most 2 _ initial_state I) in Et; [exact Et |].
    apply Qle_bool_iff. reflexivity. }
  change (Qle_bool (width narrow) tiny) with false. cbv iota.
  rewrite Hn.
  change (mkInterval (left narrow) 1) with point_one.
  change (mkInterval 1 (right narrow)) with narrow.
  apply final_none_and_then. rewrite final_and_then.
  match goal with
  | |- match ?r with _ => _ end = _ => destruct r as [s2 |] eqn:E2
  end; [| reflexivity].
  apply (narrow_point_never_returns md w Hn Hp).
  apply final_and_then_inv in E2. destruct E2 as [s1 [E1 E2]].
  rewrite and_then_some in E1. cbn [final snd app] in E1.
  apply (point_call_keeps_bound md w n narrow s1 s2); [| | exact E2].
  - apply Qle_bool_iff. reflexivity.
  - apply (point_call_keeps_bound md w n point_one st1 s1);
      [| exact H1 | exact E1].
    apply Qle_bool_iff. reflexivity.
Qed.

(** The binary64 midpoint of [[1, 1 + 2^-52]] is [1]. *)
Lemma mid_double_narrow : mid_double narrow = 1.
Proof. vm_compute. reflexivity. Qed.

Lemma mid_double_point_one : mid_double point_one = 1.
Proof. vm_compute. reflexivity. Qed.

(** C7 as stated fails in two ways.  The depth bound: on [x = [0,1]] with
    threshold [8] the run returns from the initial call, at depth 0,
    while [ceil (log2 (1/8))] is [-3]; no depth is at most that.
    Termination: on [x = y = [1, 1 + 2^-52]], two adjacent doubles, with
    threshold [2^-54] and the objective [x + y], the stored midpoint of
    [x] is [1] (no double lies strictly between the endpoints, and the
    tie rounds to even), so the right half of [x] is [x] again, as wide
    as before and wider than the threshold; the search returns for no
    depth budget. *)
Lemma depth_bound_counterexample :
  let x := itv 0 1 in
  (0 < 8 /\
   completes_within mid_double 0 solo f_sum x x 8 initial_state /\
   ceil_log2 (width x / 8) = (-3)%Z /\
   ~ (exists d : nat,
        (Z.of_nat d <= ceil_log2 (width x / 8))%Z /\
        completes_within mid_double d solo f_sum x x 8 initial_state)) /\
  (0 < tiny /\ valid narrow /\ tiny < width narrow /\
   mid_double narrow = left narrow /\
   ~ mid_double narrow == mid narrow /\
   split_box_with mid_double narrow narrow
     = (point_one, narrow, point_one, narrow) /\
   forall w d,
     ~ completes_within mid_double d w f_sum narrow narrow tiny initial_state).
Proof.
  cbv zeta. split.
  - split; [reflexivity |]. split; [vm_compute; discriminate |].
    split; [reflexivity |].
    intros [d [Hd _]].
    change (ceil_log2 (width (itv 0 1) / 8)) with (-3)%Z in Hd. lia.
  - split; [reflexivity |].
    split; [unfold valid; apply Qle_bool_iff; reflexivity |].
    split; [reflexivity |]. split; [vm_compute; reflexivity |].
    split; [rewrite mid_double_narrow; vm_compute; discriminate |].
    split; [vm_compute; reflexivity |].
    intros w d H. apply H.
    apply narrow_never_returns;
      [exact mid_double_narrow | exact mid_double_point_one].
Qed.

(** The search of [[0,4] x [0,4]] with threshold [1] and the binary64
    midpoint: the midpoints of [[0,4]], [[0,2]] and [[2,4]] are exact, and
    the search needs depth [ceil (log2 4) = 2]. *)
Lemma terminates_within_log_depth_witness :
  let x := itv 0 4 in
  0 < 1 /\
  Z.to_nat (Z.max 0 (ceil_log2 (width x / 1))) = 2%nat /\
  exact_mids mid_double 2 x /\
  completes_within mid_double 2 solo f_sum x x 1 initial_state /\
  exists tr s,
    forall m, (3 <= m)%nat ->
              minimize_with mid_double solo m f_sum x x 1 initial_state false
              = (tr, Some s).
Proof.
  cbv zeta.
  assert (H : 0 < 1) by reflexivity.
  assert (He : exact_mids mid_double 2 (itv 0 4)).
  { split; [vm_compute; reflexivity |].
    split; (split; [vm_compute; reflexivity |]); split; exact I. }
  split; [exact H |]. split; [reflexivity |]. split; [exact He |].
  exact (terminates_within_log_depth mid_double solo f_sum (itv 0 4) (itv 0 4) 1
           initial_state H He).
Defined.

(** * The distributed run as the specification words it *)

Lemma final_more_fuel w f t n m x y st s :
  (n <= m)%nat ->
  final (minimize w n f x y t st false) = Some s ->
  final (minimize w m f x y t st false) = Some s.
Proof.
  intros Hnm H. rewrite (minimize_more_fuel w f t n m); [exact H | exact Hnm |].
  rewrite H. discriminate.
Qed.

(** The property behind C9, for the distributed run as the specification
    words it: with an objective that returns well-formed intervals and is
    monotone under box inclusion, whenever the four quadrant searches and
    the sequential search of the whole box return, the minimum of the four
    quadrant bounds is at most the sequential bound. *)
Theorem spec_distributed_below_sequential :
  forall fd fs fun_ precision d s,
    valid_fun (fun_f fun_) -> incl_mono (fun_f fun_) ->
    valid (fun_x fun_) -> valid (fun_y fun_) ->
    spec_distributed_ub fd fun_ precision = Some d ->
    sequential_ub fs fun_ precision = Some s ->
    ble d s.
Proof.
  intros fd fs [f x y] t d0 s0 Hf Hm Hx Hy Hd Hs. cbn [fun_f fun_x fun_y] in *.
  set (w := mkWorld 0 []) in *.
  destruct (split_valid x Hx) as [Hxl Hxr].
  destruct (split_valid y Hy) as [Hyl Hyr].
  destruct (split_sub x Hx) as [Sxl Sxr].
  destruct (split_sub y Hy) as [Syl Syr].
  unfold spec_distributed_ub, quadrants, split_box, final_ub in Hd.
  cbn [fun_f fun_x fun_y fold_right fst snd] in Hd. fold w in Hd.
  set (xl := mkInterval (left x) (mid x)) in *.
  set (xr := mkInterval (mid x) (right x)) in *.
  set (yl := mkInterval (left y) (mid y)) in *.
  set (yr := mkInterval (mid y) (right y)) in *.
  destruct (final (minimize w fd f xl yl t initial_state false)) as [a1 |] eqn:A1;
    [| discriminate].
  destruct (final (minimize w fd f xl yr t initial_state false)) as [a2 |] eqn:A2;
    [| discriminate].
  destruct (final (minimize w fd f xr yl t initial_state false)) as [a3 |] eqn:A3;
    [| discriminate].
  destruct (final (minimize w fd f xr yr t initial_state false)) as [a4 |] eqn:A4;
    [| discriminate].
  injection Hd as <-.
  unfold sequential_ub, final_ub in Hs. cbn [fun_f fun_x fun_y] in Hs. fold w in Hs.
  destruct (final (minimize w fs f x y t initial_state false)) as [s |] eqn:Es;
    [| discriminate].
  injection Hs as <-.
  set (n := Nat.max fd fs).
  apply (final_more_fuel w f t fd (S n)) in A1, A2, A3, A4; try lia.
  apply (final_more_fuel w f t fs (S n)) in Es; [| lia].
  set (d := bmin _ _).
  assert (D1 : ble d (min_ub a1)) by apply bmin_le_l.
  assert (D2 : ble d (min_ub a2)).
  { eapply ble_trans; [apply bmin_le_r | apply bmin_le_l]. }
  assert (D3 : ble d (min_ub a3)).
  { eapply ble_trans; [apply bmin_le_r |].
    eapply ble_trans; [apply bmin_le_r | apply bmin_le_l]. }
  assert (D4 : ble d (min_ub a4)).
  { eapply ble_trans; [apply bmin_le_r |]. eapply ble_trans; [apply bmin_le_r |].
    eapply ble_trans; [apply bmin_le_r | apply bmin_le_l]. }
  assert (DR : ble d (Fin (right (f x y)))).
  { eapply ble_trans; [exact D1 |].
    eapply ble_trans; [eapply minimize_below_right; [exact A1 | reflexivity] |].
    simpl. destruct (Hm x y xl yl Hxl Hyl Sxl Syl). lra. }
  rewrite minimize_step in Es. cbn [initial_state min_ub gt_bound] in Es.
  apply final_and_then_inv in Es. destruct Es as [b1 [H1 H2]].
  rewrite and_then_some in H1. cbn [final snd] in H1.
  apply tighten_final in H1. cbn [initial_state min_ub lt_bound] in H1.
  destruct (Qle_bool (width x) t).
  - apply record_final in H2. rewrite H2, H1. exact DR.
  - apply final_and_then_inv in H2. destruct H2 as [b4 [H2 H5]].
    apply final_and_then_inv in H2. destruct H2 as [b3 [H2 H4]].
    apply final_and_then_inv in H2. destruct H2 as [b2 [H2 H3]].
    apply final_and_then_inv in H2. destruct H2 as [b1' [H2 H2']].
    injection H2 as <-.
    apply (final_more_fuel w f t n (S n)) in H2', H3, H4, H5; try lia.
    assert (G : forall bx by_ a b b', valid bx -> valid by_ ->
                  final (minimize w (S n) f bx by_ t initial_state false) = Some a ->
                  final (minimize w (S n) f bx by_ t b false) = Some b' ->
                  ble d (min_ub a) -> ble d (min_ub b) -> ble d (min_ub b')).
    { intros bx by_ a b b' Vx Vy Ha Hb Da Db.
      destruct (minimize_sim w f t Hf Hm (S n) bx by_ initial_state b a b' Vx Vy)
        as [_ R]; [apply ble_PInf | exact Ha | exact Hb |].
      eapply ble_trans; [| exact R]. apply bmin_glb; assumption. }
    assert (B1 : ble d (min_ub b1)) by (rewrite H1; exact DR).
    pose proof (G _ _ _ _ _ Hxl Hyl A1 H2' D1 B1) as B2.
    pose proof (G _ _ _ _ _ Hxl Hyr A2 H3 D2 B2) as B3.
    pose proof (G _ _ _ _ _ Hxr Hyl A3 H4 D3 B3) as B4.
    exact (G _ _ _ _ _ Hxr Hyr A4 H5 D4 B4).
Qed.

Lemma f_negx_incl_mono : incl_mono f_negx.
Proof.
  intros x y x' y' _ _ [H1 H2] _. unfold f_negx, left, right. simpl. lra.
Qed.

(** * The distributed run of the program *)

(** A process whose rank is not 0 never enters [minimize]: it ends with
    the [min_ub] and the list it started with. *)
Lemma main_nonzero_rank w fuel fun_ precision :
  mpi_rank w <> 0%Z ->
  main w fuel fun_ precision = ([], Some initial_state).
Proof.
  intros H. unfold main. apply Z.eqb_neq in H. rewrite H. reflexivity.
Qed.

(** C1, evaluated on [- x] over [[0,4] x [0,4]] with threshold [1].
    Ranks 1, 2 and 3 make no call of [minimize] and keep [min_ub = +oo]
    and an empty list.  Rank 0 enters [minimize] on its quadrant
    [[0,2] x [0,2]] with [use_mpi] set, which tightens [min_ub] to [0]
    there and then searches the single sub-quadrant [[0,1] x [0,1]],
    starting from [min_ub = 0]; the sequential engine run on the whole
    quadrant from the initial state enters five boxes and ends with
    [min_ub = -1]. *)
Theorem workers_do_not_search_their_quadrant :
  let fun_ := mkOptFun f_negx (itv 0 4) (itv 0 4) in
  let q0 := itv 0 (4 # 2) in
  let q00 := itv 0 (4 # 4) in
  let s0 := mkState (Fin 0) [] in
  let s1 := mkState (Fin 0) [mkMinimizer q00 q00 (-4 # 4) 0] in
  let rank0 := main (mkWorld 0 [PInf; PInf; PInf]) 5 fun_ 1 in
  let engine_q0 := minimize solo 5 f_negx q0 q0 1 initial_state false in
  Forall (fun r => main (mkWorld r []) 5 fun_ 1 = ([], Some initial_state))
         [1; 2; 3]%Z /\
  nth 0 (quadrants (fun_x fun_) (fun_y fun_)) (fun_x fun_, fun_y fun_)
    = (q0, q0) /\
  rank0 = ([EvCall q0 q0; EvAssign s0; EvErase s0;
            EvCall q00 q00; EvInsert s1; EvReduce s1], Some s1) /\
  length (calls (events engine_q0)) = 5%nat /\
  final_ub engine_q0 = Some (Fin (-4 # 4)).
Proof.
  cbv zeta. split; [repeat constructor |].
  repeat split; vm_compute; reflexivity.
Qed.

(** C9, evaluated on [- x] over [[0,4] x [0,4]] with threshold [1].  The
    sequential search of the whole box ends with [min_ub = -3], and so
    does the distributed run as the specification words it.  In the
    program the one search of the distributed run is that of rank 0:
    whatever the other processes contribute to the reduction, the call of
    line 164 (its undeclared [p] read as [carre]) enters the quadrant
    [[0,2] x [0,2]] and the sub-quadrant [[0,1] x [0,1]] and no other
    box, and the bound it holds when it reaches [MPI_Reduce] is [0],
    above the sequential [-3]. *)
Theorem coordinator_local_bound_above_sequential :
  let fun_ := mkOptFun f_negx (itv 0 4) (itv 0 4) in
  let q0 := itv 0 (4 # 2) in
  let q00 := itv 0 (4 # 4) in
  let s0 := mkState (Fin 0) [] in
  let s1 := mkState (Fin 0) [mkMinimizer q00 q00 (-4 # 4) 0] in
  (exists s sp,
     sequential_ub 5 fun_ 1 = Some (Fin s) /\ s == - 3 /\
     spec_distributed_ub 5 fun_ 1 = Some (Fin sp) /\ sp == - 3 /\
     ble (Fin sp) (Fin s) /\
     ~ ble (min_ub s1) (Fin s)) /\
  nth 0 (quadrants (fun_x fun_) (fun_y fun_)) (fun_x fun_, fun_y fun_)
    = (q0, q0) /\
  forall others,
    let w := mkWorld 0 others in
    tighten (f_negx q0 q0) initial_state = ([EvAssign s0; EvErase s0], Some s0) /\
    local_search w 4 f_negx q0 q0 1 s0
      = ([EvCall q00 q00; EvInsert s1], Some s1) /\
    calls (events (minimize w 5 f_negx q0 q0 1 initial_state true))
      = [(q0, q0); (q00, q00)].
Proof.
  cbv zeta. split; [| split; [reflexivity |]].
  - do 2 eexists.
    split; [lazy; reflexivity |]. split; [reflexivity |].
    split; [lazy; reflexivity |]. split; [reflexivity |].
    split; simpl; lra.
  - intros others. split; [reflexivity |]. split; [reflexivity |].
    lazy. reflexivity.
Qed.

(** The comparison of [spec_distributed_below_sequential] applies to the
    objective of this evaluation: [- x] returns well-formed intervals and
    is monotone under box inclusion. *)
Lemma spec_distributed_below_sequential_negx :
  let fun_ := mkOptFun f_negx (itv 0 4) (itv 0 4) in
  exists d s,
    spec_distributed_ub 5 fun_ 1 = Some d /\
    sequential_ub 5 fun_ 1 = Some s /\
    ble d s.
Proof.
  cbv zeta.
  assert (Hd : exists d, spec_distributed_ub 5 (mkOptFun f_negx (itv 0 4) (itv 0 4)) 1
                         = Some d) by (eexists; lazy; reflexivity).
  assert (Hs : exists s, sequential_ub 5 (mkOptFun f_negx (itv 0 4) (itv 0 4)) 1
                         = Some s) by (eexists; lazy; reflexivity).
  destruct Hd as [d Hd]. destruct Hs as [s Hs].
  exists d, s. split; [exact Hd |]. split; [exact Hs |].
  apply (spec_distributed_below_sequential
           5 5 (mkOptFun f_negx (itv 0 4) (itv 0 4)) 1 d s); try assumption.
  - exact f_negx_valid.
  - exact f_negx_incl_mono.
  - unfold valid. simpl. lra.
  - unfold valid. simpl. lra.
Qed.

(** * Complete runs as derivations *)

Lemma result_eta (r : result) : r = (events r, final r).
Proof. destruct r; reflexivity. Qed.

Lemma and_then_inv r k tr s :
  r ;; k = (tr, Some s) ->
  exists t1 s1 t2, r = (t1, Some s1) /\ k s1 = (t2, Some s) /\ tr = t1 ++ t2.
Proof.
  destruct r as [t1 [s1 |]]; simpl; [| discriminate].
  destruct (k s1) as [t2 o] eqn:E. intros [= <- ->].
  exists t1, s1, t2. auto.
Qed.

(** Every complete run of the function is a derivation. *)
Lemma minimize_run w f t :
  forall n x y st tr s,
    minimize w n f x y t st false = (tr, Some s) -> run f t x y st tr s.
Proof.
  induction n as [| n IH]; intros x y st tr s; [discriminate |].
  rewrite minimize_step.
  destruct (gt_bound (left (f x y)) (min_ub st)) eqn:Hp.
  - intros [= <- <-]. apply run_prune. apply gt_bound_above. exact Hp.
  - apply gt_bound_at_most in Hp. intros H.
    apply and_then_inv in H. destruct H as [t0 [st1 [tk [H1 [H2 ->]]]]].
    rewrite and_then_some in H1.
    destruct (tighten (f x y) st) as [tr1 o1] eqn:Et.
    cbn [events final fst snd] in H1. injection H1 as <- ->.
    destruct (Qle_bool (width x) t) eqn:Ew.
    + apply Qle_bool_iff in Ew. unfold record_minimizer in H2.
      injection H2 as <- <-.
      simpl. apply (run_leaf f t x y st tr1 st1 Hp Et Ew).
    + assert (Hw : t < width x).
      { apply Qltb_lt. unfold Qltb. rewrite Ew. reflexivity. }
      apply and_then_inv in H2. destruct H2 as [t123 [s3 [t4 [H2 [H5 ->]]]]].
      apply and_then_inv in H2. destruct H2 as [t12 [s2 [t3 [H2 [H4 ->]]]]].
      apply and_then_inv in H2. destruct H2 as [t1' [s1 [t2 [H2 [H3 ->]]]]].
      apply and_then_inv in H2. destruct H2 as [t0 [s0 [t1 [H2 [H2' ->]]]]].
      injection H2 as <- <-.
      apply IH in H2', H3, H4, H5.
      assert (Etr : (EvCall x y :: tr1) ++ ((([] ++ t1) ++ t2) ++ t3) ++ t4
                    = EvCall x y :: tr1 ++ t1 ++ t2 ++ t3 ++ t4)
        by (simpl; rewrite <- !app_assoc; reflexivity).
      simpl app at 1. simpl in Etr |- *. rewrite Etr.
      eapply run_split; eassumption.
Qed.

Lemma minimize_lift w f t n m x y st tr s :
  (n <= m)%nat ->
  minimize w n f x y t st false = (tr, Some s) ->
  minimize w m f x y t st false = (tr, Some s).
Proof.
  intros Hnm H. rewrite (minimize_more_fuel w f t n m); [exact H | exact Hnm |].
  rewrite H. discriminate.
Qed.

(** Every derivation is a complete run of the function, for some depth
    budget. *)
Lemma run_minimize w f t x y st tr s :
  run f t x y st tr s ->
  exists n, minimize w n f x y t st false = (tr, Some s).
Proof.
  induction 1 as [x y st Hp
                 | x y st tr1 st1 Hp Et Ew s
                 | x y st tr1 st1 t1 s1 t2 s2 t3 s3 t4 s4 Hp Et Ew
                     _ [n1 H1] _ [n2 H2] _ [n3 H3] _ [n4 H4]].
  - exists 1%nat. apply gt_bound_above in Hp. simpl. rewrite Hp. reflexivity.
  - exists 1%nat. rewrite minimize_step.
    apply gt_bound_at_most in Hp. apply Qle_bool_iff in Ew.
    rewrite Hp, and_then_some, Et. cbn [events final fst snd].
    rewrite and_then_some, Ew. unfold record_minimizer.
    cbn [events final fst snd]. rewrite <- app_assoc. reflexivity.
  - set (n := Nat.max (Nat.max n1 n2) (Nat.max n3 n4)).
    exists (S n). rewrite minimize_step.
    apply gt_bound_at_most in Hp.
    assert (Ew' : Qle_bool (width x) t = false).
    { apply Qltb_lt in Ew. unfold Qltb in Ew. apply negb_true_iff in Ew. exact Ew. }
    apply (minimize_lift w f t n1 n) in H1; [| lia].
    apply (minimize_lift w f t n2 n) in H2; [| lia].
    apply (minimize_lift w f t n3 n) in H3; [| lia].
    apply (minimize_lift w f t n4 n) in H4; [| lia].
    rewrite Hp, and_then_some, Et. cbn [events final fst snd].
    rewrite and_then_some, Ew'.
    rewrite and_then_some, H1. cbn [events final fst snd].
    rewrite and_then_some, H2. cbn [events final fst snd].
    rewrite and_then_some, H3. cbn [events final fst snd].
    rewrite and_then_some, H4. cbn [events final fst snd].
    simpl. rewrite <- !app_assoc. reflexivity.
Qed.

(** * Properties of complete runs *)

(** The two ways through lines 34-40. *)
Lemma tighten_cases fxy st tr1 st1 :
  tighten fxy st = (tr1, Some st1) ->
  (below (right fxy) (min_ub st) /\
   min_ub st1 = Fin (right fxy) /\
   ml st1 = erase_from_lower_bound
              (mkMinimizer (interval_of 0) (interval_of 0) (right fxy) 0) (ml st) /\
   calls tr1 = []) \/
  (~ below (right fxy) (min_ub st) /\ st1 = st /\ tr1 = []).
Proof.
  unfold tighten. destruct (lt_bound (right fxy) (min_ub st)) eqn:E.
  - apply lt_bound_below in E. intros [= <- <-]. left. auto.
  - apply lt_bound_not_below in E. intros [= <- <-]. right. auto.
Qed.

Lemma tighten_le fxy st tr1 st1 :
  tighten fxy st = (tr1, Some st1) -> ble (min_ub st1) (min_ub st).
Proof.
  intros H. destruct (tighten_cases _ _ _ _ H) as [[Hb [Hu _]] | [_ [-> _]]].
  - rewrite Hu. destruct (min_ub st); simpl in *; [lra | exact I].
  - apply ble_refl.
Qed.

Lemma tighten_calls fxy st tr1 st1 :
  tighten fxy st = (tr1, Some st1) -> calls tr1 = [].
Proof.
  intros H. destruct (tighten_cases _ _ _ _ H) as [[_ [_ [_ Hc]]] | [_ [_ ->]]];
    [exact Hc | reflexivity].
Qed.

Lemma tighten_le_right fxy st tr1 st1 :
  tighten fxy st = (tr1, Some st1) -> ble (min_ub st1) (Fin (right fxy)).
Proof.
  intros H. destruct (tighten_cases _ _ _ _ H) as [[Hb [Hu _]] | [Hn [-> _]]].
  - rewrite Hu. apply ble_refl.
  - destruct (min_ub st); simpl in *; [lra | tauto].
Qed.

Lemma run_mono f t x y st tr s :
  run f t x y st tr s -> ble (min_ub s) (min_ub st).
Proof.
  induction 1 as [x y st Hp
                 | x y st tr1 st1 Hp Et Ew s
                 | x y st tr1 st1 t1 s1 t2 s2 t3 s3 t4 s4 Hp Et Ew
                     _ IH1 _ IH2 _ IH3 _ IH4].
  - apply ble_refl.
  - simpl. eapply tighten_le; exact Et.
  - apply tighten_le in Et. eauto using ble_trans.
Qed.

Lemma calls_run_split x y tr1 t1 t2 t3 t4 :
  calls tr1 = [] ->
  calls (EvCall x y :: tr1 ++ t1 ++ t2 ++ t3 ++ t4)
  = (x, y) :: calls t1 ++ calls t2 ++ calls t3 ++ calls t4.
Proof.
  intros H. simpl. rewrite !calls_app, H. reflexivity.
Qed.

Lemma calls_run_leaf x y tr1 s :
  calls tr1 = [] -> calls (EvCall x y :: tr1 ++ [EvInsert s]) = [(x, y)].
Proof. intros H. simpl. rewrite calls_app, H. reflexivity. Qed.

Lemma sub_itv_refl a : sub_itv a a.
Proof. unfold sub_itv. lra. Qed.

Lemma sub_itv_trans a b c : sub_itv a b -> sub_itv b c -> sub_itv a c.
Proof. unfold sub_itv. intros [] []. lra. Qed.

Lemma inside_box_refl x y : inside_box x y (x, y).
Proof. split; apply sub_itv_refl. Qed.

Lemma inside_box_child x y cx cy b :
  sub_itv cx x -> sub_itv cy y -> inside_box cx cy b -> inside_box x y b.
Proof.
  intros Sx Sy [B1 B2]. split.
  - apply (sub_itv_trans _ cx); assumption.
  - apply (sub_itv_trans _ cy); assumption.
Qed.

(** Every box a complete run enters lies inside the box it was called
    on. *)
Lemma run_calls_inside f t x y st tr s :
  run f t x y st tr s -> valid x -> valid y ->
  Forall (inside_box x y) (calls tr).
Proof.
  induction 1 as [x y st Hp
                 | x y st tr1 st1 Hp Et Ew s
                 | x y st tr1 st1 t1 s1 t2 s2 t3 s3 t4 s4 Hp Et Ew
                     _ IH1 _ IH2 _ IH3 _ IH4]; intros Hx Hy.
  - constructor; [| constructor].
    apply inside_box_refl.
  - rewrite (calls_run_leaf _ _ _ _ (tighten_calls _ _ _ _ Et)).
    constructor; [| constructor].
    apply inside_box_refl.
  - rewrite (calls_run_split _ _ _ _ _ _ _ (tighten_calls _ _ _ _ Et)).
    destruct (split_valid x Hx) as [Hxl Hxr].
    destruct (split_valid y Hy) as [Hyl Hyr].
    destruct (split_sub x Hx) as [Sxl Sxr].
    destruct (split_sub y Hy) as [Syl Syr].
    constructor.
    + apply inside_box_refl.
    + rewrite !Forall_app. repeat split.
      * eapply Forall_impl; [| apply IH1; assumption].
        intros b. apply inside_box_child; assumption.
      * eapply Forall_impl; [| apply IH2; assumption].
        intros b. apply inside_box_child; assumption.
      * eapply Forall_impl; [| apply IH3; assumption].
        intros b. apply inside_box_child; assumption.
      * eapply Forall_impl; [| apply IH4; assumption].
        intros b. apply inside_box_child; assumption.
Qed.

Ltac run_induction H :=
  induction H as [x y st Hp
                 | x y st tr1 st1 Hp Et Ew s
                 | x y st tr1 st1 t1 s1 t2 s2 t3 s3 t4 s4 Hp Et Ew
                     R1 IH1 R2 IH2 R3 IH3 R4 IH4].

(** At the end of a complete run, [min_ub] is at most the right endpoint
    of the enclosure of every box the run entered. *)
Lemma run_bound_le_right f t x y st tr s :
  valid_fun f ->
  run f t x y st tr s -> valid x -> valid y ->
  Forall (fun b => ble (min_ub s) (Fin (right (f (fst b) (snd b))))) (calls tr).
Proof.
  intros Hf H. run_induction H; intros Hx Hy.
  - constructor; [| constructor]. simpl.
    pose proof (Hf x y Hx Hy) as Hv. unfold valid, left, right in *.
    destruct (min_ub st); simpl in *; [lra | contradiction].
  - rewrite (calls_run_leaf _ _ _ _ (tighten_calls _ _ _ _ Et)).
    constructor; [| constructor]. simpl. eapply tighten_le_right; exact Et.
  - rewrite (calls_run_split _ _ _ _ _ _ _ (tighten_calls _ _ _ _ Et)).
    destruct (split_valid x Hx) as [Hxl Hxr].
    destruct (split_valid y Hy) as [Hyl Hyr].
    apply run_mono in R1, R2, R3, R4.
    constructor.
    + simpl. apply tighten_le_right in Et. eauto using ble_trans.
    + rewrite !Forall_app. repeat split.
      * eapply Forall_impl; [| apply IH1; assumption].
        simpl. intros b Hb. eauto using ble_trans.
      * eapply Forall_impl; [| apply IH2; assumption].
        simpl. intros b Hb. eauto using ble_trans.
      * eapply Forall_impl; [| apply IH3; assumption].
        simpl. intros b Hb. eauto using ble_trans.
      * apply IH4; assumption.
Qed.

(** At the end of a complete run, [min_ub] is the value the run started
    with or the right endpoint of the enclosure of a box it entered. *)
Lemma run_bound_attained f t x y st tr s :
  run f t x y st tr s ->
  min_ub s = min_ub st \/
  Exists (fun b => min_ub s = Fin (right (f (fst b) (snd b)))) (calls tr).
Proof.
  intros H. run_induction H.
  - left. reflexivity.
  - rewrite (calls_run_leaf _ _ _ _ (tighten_calls _ _ _ _ Et)). simpl.
    destruct (tighten_cases _ _ _ _ Et) as [[_ [Hu _]] | [_ [-> _]]].
    + right. constructor. exact Hu.
    + left. reflexivity.
  - rewrite (calls_run_split _ _ _ _ _ _ _ (tighten_calls _ _ _ _ Et)).
    destruct IH4 as [E4 | E4];
      [| right; apply Exists_cons_tl; rewrite !Exists_app; auto].
    destruct IH3 as [E3 | E3];
      [| right; apply Exists_cons_tl; rewrite !Exists_app, E4; auto].
    destruct IH2 as [E2 | E2];
      [| right; apply Exists_cons_tl; rewrite !Exists_app, E4, E3; auto].
    destruct IH1 as [E1 | E1];
      [| right; apply Exists_cons_tl; rewrite !Exists_app, E4, E3, E2; auto].
    rewrite E4, E3, E2, E1.
    destruct (tighten_cases _ _ _ _ Et) as [[_ [Hu _]] | [_ [-> _]]].
    + right. constructor. exact Hu.
    + left. reflexivity.
Qed.

Lemma erase_incl key l m : In m (erase_from_lower_bound key l) -> In m l.
Proof.
  intros H. rewrite (erase_split key l). apply in_or_app. now left.
Qed.

Lemma tighten_incl fxy st tr1 st1 m :
  tighten fxy st = (tr1, Some st1) -> In m (ml st1) -> In m (ml st).
Proof.
  intros H. destruct (tighten_cases _ _ _ _ H) as [[_ [_ [Hl _]]] | [_ [-> _]]].
  - rewrite Hl. apply erase_incl.
  - auto.
Qed.

(** Every minimizer stored at the end of a complete run was stored at the
    start or is the record of a box the run entered, of x-width at most
    the threshold. *)
Lemma run_minimizers f t x y st tr s :
  run f t x y st tr s ->
  forall m, In m (ml s) ->
    In m (ml st) \/
    exists b, In b (calls tr) /\ m = minimizer_of f b /\ width (fst b) <= t.
Proof.
  intros H. run_induction H; intros m Hm.
  - left. exact Hm.
  - rewrite (calls_run_leaf _ _ _ _ (tighten_calls _ _ _ _ Et)).
    simpl in Hm. apply In_ml_insert in Hm. destruct Hm as [-> | Hm].
    + right. exists (x, y). split; [now left | split; [reflexivity | exact Ew]].
    + left. eapply tighten_incl; eassumption.
  - rewrite (calls_run_split _ _ _ _ _ _ _ (tighten_calls _ _ _ _ Et)).
    destruct (IH4 m Hm) as [H4 | [b [Hb Hr]]];
      [| right; exists b; split;
         [right; rewrite !in_app_iff; auto | exact Hr]].
    destruct (IH3 m H4) as [H3 | [b [Hb Hr]]];
      [| right; exists b; split;
         [right; rewrite !in_app_iff; auto | exact Hr]].
    destruct (IH2 m H3) as [H2 | [b [Hb Hr]]];
      [| right; exists b; split;
         [right; rewrite !in_app_iff; auto | exact Hr]].
    destruct (IH1 m H2) as [H1 | [b [Hb Hr]]];
      [| right; exists b; split;
         [right; rewrite !in_app_iff; auto | exact Hr]].
    left. eapply tighten_incl; eassumption.
Qed.

Lemma tighten_sorted fxy st tr1 st1 :
  tighten fxy st = (tr1, Some st1) -> ml_sorted (ml st) -> ml_sorted (ml st1).
Proof.
  intros H Hs. destruct (tighten_cases _ _ _ _ H) as [[_ [_ [Hl _]]] | [_ [-> _]]].
  - rewrite Hl. apply erase_sorted. exact Hs.
  - exact Hs.
Qed.

Lemma run_sorted f t x y st tr s :
  run f t x y st tr s -> ml_sorted (ml st) -> ml_sorted (ml s).
Proof.
  intros H. run_induction H; intros Hs.
  - exact Hs.
  - simpl. apply ml_insert_sorted. eapply tighten_sorted; eassumption.
  - apply IH4, IH3, IH2, IH1. eapply tighten_sorted; eassumption.
Qed.

Lemma below_ble q a b : below q a -> ble a b -> below q b.
Proof. destruct a, b; simpl; try tauto; intros; lra. Qed.

Lemma covered_insert g st p m :
  covered g st p -> covered g (mkState (min_ub st) (ml_insert m (ml st))) p.
Proof.
  intros [e [He Hc]]. exists e. split; [| exact Hc].
  simpl. apply In_ml_insert. now right.
Qed.

Lemma tighten_covered g fxy st tr1 st1 p :
  tighten fxy st = (tr1, Some st1) ->
  ml_sorted (ml st) ->
  below (g p) (min_ub st1) ->
  covered g st p -> covered g st1 p.
Proof.
  intros H Hs Hb. destruct (tighten_cases _ _ _ _ H) as [[_ [Hu [Hl _]]] | [_ [-> _]]];
    [| auto].
  intros [m [Hm [Hin Hle]]]. exists m. split; [| auto].
  rewrite Hl, erase_is_filter by exact Hs.
  apply filter_In. split; [exact Hm |].
  rewrite Hu in Hb. simpl in Hb. apply Qltb_lt. simpl. lra.
Qed.

Lemma split_covers (x y : interval) (p : Q * Q) :
  in_box (x, y) p ->
  in_box (mkInterval (left x) (mid x), mkInterval (left y) (mid y)) p \/
  in_box (mkInterval (left x) (mid x), mkInterval (mid y) (right y)) p \/
  in_box (mkInterval (mid x) (right x), mkInterval (left y) (mid y)) p \/
  in_box (mkInterval (mid x) (right x), mkInterval (mid y) (right y)) p.
Proof.
  destruct p as [px py]. unfold in_box, in_itv. simpl.
  intros [[Hx1 Hx2] [Hy1 Hy2]].
  destruct (Qlt_le_dec px (mid x)) as [Hx | Hx];
    destruct (Qlt_le_dec py (mid y)) as [Hy | Hy].
  - left. unfold left, right. lra.
  - right; left. unfold left, right. lra.
  - right; right; left. unfold left, right. lra.
  - right; right; right. unfold left, right. lra.
Qed.

(** No point is lost: at the end of a complete run, a point whose value is
    strictly below the final [min_ub] is still covered if it was covered
    at the start, and is covered if it lies in the box searched. *)
Lemma run_covered f g t x y st tr s :
  encloses f g ->
  run f t x y st tr s ->
  ml_sorted (ml st) ->
  forall p, below (g p) (min_ub s) ->
    (covered g st p -> covered g s p) /\
    (in_box (x, y) p -> covered g s p).
Proof.
  intros He H. run_induction H; intros Hs p Hb.
  - split; [auto |]. intros Hin. exfalso.
    destruct (He x y p Hin) as [Hl _].
    destruct (min_ub st); simpl in *; [lra | contradiction].
  - split.
    + intros Hc. apply covered_insert.
      eapply tighten_covered; eassumption.
    + intros Hin. exists (mkMinimizer x y (left (f x y)) (right (f x y))).
      split; [simpl; apply In_ml_insert; now left |].
      split; [exact Hin |]. simpl. apply (He x y p Hin).
  - pose proof (tighten_sorted _ _ _ _ Et Hs) as Hs0.
    pose proof (run_sorted _ _ _ _ _ _ _ R1 Hs0) as Hs1.
    pose proof (run_sorted _ _ _ _ _ _ _ R2 Hs1) as Hs2.
    pose proof (run_sorted _ _ _ _ _ _ _ R3 Hs2) as Hs3.
    pose proof (run_mono _ _ _ _ _ _ _ R4) as M4.
    pose proof (run_mono _ _ _ _ _ _ _ R3) as M3.
    pose proof (run_mono _ _ _ _ _ _ _ R2) as M2.
    pose proof (run_mono _ _ _ _ _ _ _ R1) as M1.
    assert (B3 : below (g p) (min_ub s3)) by (eapply below_ble; eassumption).
    assert (B2 : below (g p) (min_ub s2)) by (eapply below_ble; eassumption).
    assert (B1 : below (g p) (min_ub s1)) by (eapply below_ble; eassumption).
    assert (B0 : below (g p) (min_ub st1)) by (eapply below_ble; eassumption).
    destruct (IH1 Hs0 p B1) as [K1 C1]. destruct (IH2 Hs1 p B2) as [K2 C2].
    destruct (IH3 Hs2 p B3) as [K3 C3]. destruct (IH4 Hs3 p Hb) as [K4 C4].
    split.
    + intros Hc. apply K4, K3, K2, K1.
      eapply tighten_covered; eassumption.
    + intros Hin.
      destruct (split_covers x y p Hin) as [Q | [Q | [Q | Q]]]; auto.
Qed.

(** * Further properties of the sequential engine *)


Lemma Forall_calls_and_then (P : box -> Prop) r k :
  Forall P (calls (events r)) ->
  (forall s, final r = Some s -> Forall P (calls (events (k s)))) ->
  Forall P (calls (events (r ;; k))).
Proof.
  intros Hr Hk. rewrite events_and_then.
  destruct (final r) as [s |] eqn:E; [| exact Hr].
  rewrite calls_app, Forall_app. split; [exact Hr | apply Hk; reflexivity].
Qed.

Lemma tighten_no_calls fxy st : calls (events (tighten fxy st)) = [].
Proof. destruct (tighten_total fxy st) as [st1 [_ H]]. exact H. Qed.

(** The boxes entered in a sequential search, at every depth budget. *)
Lemma minimize_calls_inside w f t :
  forall m x y st,
    valid x -> valid y ->
    Forall (fun b => inside_box x y b /\ valid (fst b) /\ valid (snd b))
           (calls (events (minimize w m f x y t st false))).
Proof.
  induction m as [| m IH]; intros x y st Hx Hy; [constructor |].
  rewrite minimize_step.
  assert (H0 : inside_box x y (x, y) /\ valid (fst (x, y)) /\ valid (snd (x, y))).
  { split; [apply inside_box_refl | split; assumption]. }
  destruct (gt_bound (left (f x y)) (min_ub st)).
  - simpl. constructor; [exact H0 | constructor].
  - apply Forall_calls_and_then; [apply Forall_calls_and_then |].
    + simpl. constructor; [exact H0 | constructor].
    + intros s _. rewrite tighten_no_calls. constructor.
    + intros st1 _. destruct (Qle_bool (width x) t); [simpl; constructor |].
      destruct (split_valid x Hx) as [Hxl Hxr].
      destruct (split_valid y Hy) as [Hyl Hyr].
      destruct (split_sub x Hx) as [Sxl Sxr].
      destruct (split_sub y Hy) as [Syl Syr].
      repeat apply Forall_calls_and_then; try (simpl; constructor);
        intros s _;
        (eapply Forall_impl; [| apply IH; assumption]);
        intros b [Hb Hv]; (split; [| exact Hv]);
        (eapply inside_box_child; [| | exact Hb]); assumption.
Qed.

(** X2.  Every box entered by a sequential search of a well-formed box,
    whether the search returns or is cut short by the depth budget, is
    well formed and lies inside the box searched. *)
Theorem search_stays_in_box :
  forall w m f x y threshold st,
    valid x -> valid y ->
    Forall (fun b => inside_box x y b /\ valid (fst b) /\ valid (snd b))
           (calls (events (minimize w m f x y threshold st false))).
Proof.
  intros w m f x y t st Hx Hy. apply minimize_calls_inside; assumption.
Qed.

(** X3.  The bound a sequential search returns with is the least of the
    bound it started with and the right endpoints of the enclosures of all
    boxes it entered: it is at most each of them, and it is one of them. *)
Theorem final_bound_is_least_right_endpoint :
  forall w m f x y threshold st tr s,
    valid_fun f -> valid x -> valid y ->
    minimize w m f x y threshold st false = (tr, Some s) ->
    ble (min_ub s) (min_ub st) /\
    Forall (fun b => ble (min_ub s) (Fin (right (f (fst b) (snd b)))))
           (calls tr) /\
    (min_ub s = min_ub st \/
     Exists (fun b => min_ub s = Fin (right (f (fst b) (snd b)))) (calls tr)).
Proof.
  intros w m f x y t st tr s Hf Hx Hy E.
  apply minimize_run in E. split; [| split].
  - eapply run_mono; exact E.
  - eapply run_bound_le_right; eassumption.
  - eapply run_bound_attained; exact E.
Qed.

(** X4.  Every minimizer in the list when a sequential search returns was
    already in it before, or is [{bx, by, f(bx,by).left, f(bx,by).right}]
    for a box [(bx, by)] the search entered, inside the box searched and
    of x-width at most the threshold. *)
Theorem stored_minimizers_are_leaf_records :
  forall w m f x y threshold st tr s,
    valid x -> valid y ->
    minimize w m f x y threshold st false = (tr, Some s) ->
    forall e, In e (ml s) ->
      In e (ml st) \/
      exists b, In b (calls tr) /\ inside_box x y b /\
                width (fst b) <= threshold /\ e = minimizer_of f b.
Proof.
  intros w m f x y t st tr s Hx Hy E e He.
  apply minimize_run in E.
  destruct (run_minimizers _ _ _ _ _ _ _ E e He) as [H | [b [Hb [-> Hw]]]];
    [left; exact H | right].
  exists b. split; [exact Hb |]. split; [| split; [exact Hw | reflexivity]].
  pose proof (run_calls_inside _ _ _ _ _ _ _ E Hx Hy) as HS.
  rewrite Forall_forall in HS. apply HS. exact Hb.
Qed.

(** X5.  A sequential search drops stored minimizers only by lowering the
    bound: when it returns, either it ends with the [min_ub] it started
    with and every minimizer stored before is still stored, or it ends
    with a strictly smaller [min_ub]. *)
Theorem minimizers_dropped_only_when_bound_drops :
  forall w m f x y threshold st tr s,
    minimize w m f x y threshold st false = (tr, Some s) ->
    (min_ub s = min_ub st /\ incl (ml st) (ml s)) \/
    blt (min_ub s) (min_ub st).
Proof.
  intros w m f x y t st tr s E.
  apply (minimize_kot w f t m x y st s). rewrite E. reflexivity.
Qed.

(** X6.  No point below the bound is lost.  When [f] encloses the objective
    [g] and a sequential search returns, every point whose value is
    strictly below the final [min_ub] lies in the box of a stored
    minimizer (with [lb] at most its value), if it lies in the box
    searched or did so before the search. *)
Theorem no_point_below_bound_is_lost :
  forall w m f g x y threshold st tr s,
    encloses f g -> ml_sorted (ml st) ->
    minimize w m f x y threshold st false = (tr, Some s) ->
    forall p, below (g p) (min_ub s) ->
      (covered g st p -> covered g s p) /\
      (in_box (x, y) p -> covered g s p).
Proof.
  intros w m f g x y t st tr s He Hs E.
  apply minimize_run in E.
  eapply run_covered; eassumption.
Qed.

Lemma encloses_valid f g x y : encloses f g -> valid x -> valid y -> valid (f x y).
Proof.
  intros He Hx Hy. unfold valid in *.
  assert (Hin : in_box (x, y) (lo x, lo y)).
  { unfold in_box, in_itv. simpl. lra. }
  destruct (He x y _ Hin). unfold left, right in *. lra.
Qed.


(** * The engine with [use_mpi] set *)

Lemma and_then_unit_l s k : ([], Some s) ;; k = k s.
Proof. simpl. destruct (k s). reflexivity. Qed.

Lemma and_then_unit_r r : r ;; (fun s => ([], Some s)) = r.
Proof. destruct r as [t [s |]]; simpl; [rewrite app_nil_r |]; reflexivity. Qed.

Lemma and_then_ext r k k' : (forall s, k s = k' s) -> r ;; k = r ;; k'.
Proof.
  intros H. destruct r as [t [s |]]; simpl; [rewrite H |]; reflexivity.
Qed.

(** One step of the engine with [use_mpi] set. *)
Lemma minimize_step_mpi w n f x y t st :
  minimize w (S n) f x y t st true =
  if gt_bound (left (f x y)) (min_ub st) then ([EvCall x y], Some st)
  else
    ([EvCall x y], Some st) ;; tighten (f x y) ;; fun st1 =>
    if Qle_bool (width x) t then record_minimizer x y (f x y) st1
    else
      local_search w n f x y t st1 ;; fun loc =>
      ([EvReduce (reduced w st1 loc)], Some (reduced w st1 loc)).
Proof.
  cbn [minimize].
  destruct (gt_bound (left (f x y)) (min_ub st)); [reflexivity |].
  apply and_then_ext. intros st1.
  destruct (Qle_bool (width x) t); [reflexivity |].
  unfold local_search, rank_quadrant, split_box, reduced.
  destruct (mpi_rank w =? 0)%Z eqn:E0; destruct (mpi_rank w =? 1)%Z eqn:E1;
    destruct (mpi_rank w =? 2)%Z eqn:E2; destruct (mpi_rank w =? 3)%Z eqn:E3;
    repeat match goal with
           | H : (_ =? _)%Z = true |- _ => apply Z.eqb_eq in H
           end;
    try (exfalso; lia);
    cbn [fst snd];
    repeat (rewrite and_then_unit_l || rewrite and_then_unit_r);
    destruct st1; reflexivity.
Qed.

Lemma no_reduce_and_then r k :
  no_reduce (events r) -> (forall s, no_reduce (events (k s))) ->
  no_reduce (events (r ;; k)).
Proof.
  intros Hr Hk s. rewrite events_and_then.
  destruct (final r) as [s1 |]; [| apply Hr].
  intros H. apply in_app_or in H. destruct H as [H | H];
    [exact (Hr s H) | exact (Hk s1 s H)].
Qed.

Lemma tighten_no_reduce fxy st : no_reduce (events (tighten fxy st)).
Proof.
  unfold tighten. destruct (lt_bound (right fxy) (min_ub st)); intros s H;
    simpl in H; intuition discriminate.
Qed.

(** The sequential engine makes no reduction. *)
Lemma minimize_no_reduce w f t :
  forall n x y st, no_reduce (events (minimize w n f x y t st false)).
Proof.
  induction n as [| n IH]; intros x y st; [intros s [] |].
  rewrite minimize_step.
  destruct (gt_bound (left (f x y)) (min_ub st)).
  - intros s H. simpl in H. intuition discriminate.
  - repeat apply no_reduce_and_then.
    + intros s H. simpl in H. intuition discriminate.
    + intros s. apply tighten_no_reduce.
    + intros st1. destruct (Qle_bool (width x) t).
      * intros s H. simpl in H. intuition discriminate.
      * repeat apply no_reduce_and_then; try (intros; apply IH).
        intros s [].
Qed.

Lemma local_search_no_reduce w n f x y t st :
  no_reduce (events (local_search w n f x y t st)).
Proof.
  unfold local_search. destruct (rank_quadrant (mpi_rank w) x y).
  - apply minimize_no_reduce.
  - intros s [].
Qed.

(** X8.  With [use_mpi] set, the call reaches [MPI_Reduce] exactly when
    its box is neither pruned nor of x-width at most the threshold (and
    the local search returns): on a pruned or leaf box it returns at
    lines 31 or 48, before the collective of line 72. *)
Theorem reduction_reached_iff_box_is_split :
  forall w n f x y threshold st,
    let r := minimize w (S n) f x y threshold st true in
    (exists s, In (EvReduce s) (events r)) <->
    (at_most (left (f x y)) (min_ub st) /\ threshold < width x /\
     final r <> None).
Proof.
  intros w n f x y t st r. unfold r. rewrite minimize_step_mpi.
  destruct (gt_bound (left (f x y)) (min_ub st)) eqn:Hp.
  - split.
    + intros [s [H | []]]. discriminate.
    + intros [H _]. apply gt_bound_at_most in H. congruence.
  - apply gt_bound_at_most in Hp.
    rewrite and_then_some.
    destruct (tighten_total (f x y) st) as [st1 [Et _]].
    pose proof (tighten_no_reduce (f x y) st) as Ht.
    rewrite Et in Ht |- *. cbn [events final fst snd] in Ht |- *.
    rewrite and_then_some. cbn [events final fst snd].
    destruct (Qle_bool (width x) t) eqn:Ew.
    + apply Qle_bool_iff in Ew. split.
      * intros [s H]. simpl in H. destruct H as [H | H]; [discriminate |].
        apply in_app_or in H. destruct H as [H | H]; [elim (Ht s H) |].
        simpl in H. intuition discriminate.
      * intros [_ [H _]]. lra.
    + assert (Hw : t < width x).
      { apply Qltb_lt. unfold Qltb. rewrite Ew. reflexivity. }
      pose proof (local_search_no_reduce w n f x y t st1) as Hl.
      rewrite events_and_then, final_and_then.
      destruct (final (local_search w n f x y t st1)) as [loc |].
      * split; [intros _; repeat split; [exact Hp | exact Hw | discriminate] |].
        intros _. exists (reduced w st1 loc). simpl. right.
        apply in_or_app. right. apply in_or_app. right. now left.
      * split; [| intros [_ [_ H]]; now elim H].
        intros [s H]. simpl in H. destruct H as [H | H]; [discriminate |].
        apply in_app_or in H. destruct H as [H | H]; [elim (Ht s H) |].
        elim (Hl s H).
Qed.

Lemma fold_bmin_le a l :
  ble (fold_right bmin a l) a /\ Forall (ble (fold_right bmin a l)) l.
Proof.
  induction l as [| b l [IH1 IH2]]; simpl.
  - split; [apply ble_refl | constructor].
  - split.
    + eapply ble_trans; [apply bmin_le_r | exact IH1].
    + constructor; [apply bmin_le_l |].
      eapply Forall_impl; [| exact IH2].
      intros c Hc. eapply ble_trans; [apply bmin_le_r | exact Hc].
Qed.

Lemma rank_quadrant_some r x y b :
  rank_quadrant r x y = Some b ->
  In b (quadrants x y) /\
  (valid x -> valid y ->
   valid (fst b) /\ valid (snd b) /\ sub_itv (fst b) x /\ sub_itv (snd b) y).
Proof.
  unfold rank_quadrant, quadrants, split_box.
  assert (V : valid x -> valid y ->
              (valid (mkInterval (left x) (mid x)) /\ valid (mkInterval (mid x) (right x)) /\
               sub_itv (mkInterval (left x) (mid x)) x /\ sub_itv (mkInterval (mid x) (right x)) x) /\
              (valid (mkInterval (left y) (mid y)) /\ valid (mkInterval (mid y) (right y)) /\
               sub_itv (mkInterval (left y) (mid y)) y /\ sub_itv (mkInterval (mid y) (right y)) y)).
  { intros Hx Hy. pose proof (split_valid x Hx). pose proof (split_valid y Hy).
    pose proof (split_sub x Hx). pose proof (split_sub y Hy). tauto. }
  destruct (r =? 0)%Z; [| destruct (r =? 1)%Z; [| destruct (r =? 2)%Z;
    [| destruct (r =? 3)%Z; [| discriminate]]]];
    intros [= <-]; (split; [simpl; auto |]);
    intros Hx Hy; specialize (V Hx Hy); simpl; tauto.
Qed.

(** A local search that returns is the complete sequential run on the
    quadrant of the process, or nothing at all. *)
Lemma local_search_run w n f x y t st tl loc :
  local_search w n f x y t st = (tl, Some loc) ->
  match rank_quadrant (mpi_rank w) x y with
  | Some q => run f t (fst q) (snd q) st tl loc
  | None => tl = [] /\ loc = st
  end.
Proof.
  unfold local_search. destruct (rank_quadrant (mpi_rank w) x y) as [q |].
  - apply minimize_run.
  - intros [= <- <-]. auto.
Qed.

(** The three ways in which a call with [use_mpi] set returns: at the
    prune test, at the stop test, or after the reduction. *)
Lemma mpi_call_inv w n f x y t st tr s :
  minimize w (S n) f x y t st true = (tr, Some s) ->
  (above (left (f x y)) (min_ub st) /\ tr = [EvCall x y] /\ s = st) \/
  (at_most (left (f x y)) (min_ub st) /\
   exists tr1 st1,
     tighten (f x y) st = (tr1, Some st1) /\
     ((width x <= t /\
       s = mkState (min_ub st1)
             (ml_insert (mkMinimizer x y (left (f x y)) (right (f x y)))
                        (ml st1)) /\
       tr = EvCall x y :: tr1 ++ [EvInsert s]) \/
      (t < width x /\
       exists tl loc,
         local_search w n f x y t st1 = (tl, Some loc) /\
         tr = EvCall x y :: tr1 ++ tl ++ [EvReduce (reduced w st1 loc)] /\
         s = reduced w st1 loc))).
Proof.
  rewrite minimize_step_mpi.
  destruct (gt_bound (left (f x y)) (min_ub st)) eqn:Hp.
  - intros [= <- <-]. left. apply gt_bound_above in Hp. auto.
  - apply gt_bound_at_most in Hp. intros H. right. split; [exact Hp |].
    apply and_then_inv in H. destruct H as [t0 [st1 [tk [H1 [H2 ->]]]]].
    rewrite and_then_some in H1.
    destruct (tighten (f x y) st) as [tr1 o1] eqn:Et.
    cbn [events final fst snd] in H1. injection H1 as <- ->.
    exists tr1, st1. split; [reflexivity |].
    destruct (Qle_bool (width x) t) eqn:Ew.
    + left. apply Qle_bool_iff in Ew. unfold record_minimizer in H2.
      injection H2 as <- <-. split; [exact Ew |]. split; [reflexivity |].
      simpl. rewrite <- ?app_assoc. reflexivity.
    + right.
      assert (Hw : t < width x).
      { apply Qltb_lt. unfold Qltb. rewrite Ew. reflexivity. }
      split; [exact Hw |].
      apply and_then_inv in H2. destruct H2 as [tl [loc [tr' [H2 [H3 ->]]]]].
      injection H3 as <- <-.
      exists tl, loc. split; [exact H2 |]. split; [| reflexivity].
      simpl. rewrite <- ?app_assoc. reflexivity.
Qed.

(** X9.  With [use_mpi] set, a call that returns from a box that is not
    pruned and is wider than the threshold has run the tighten step, then
    the local search of the process's quadrant (none when its rank is not
    0..3), then the reduction.  The list it ends with is the local
    search's.  On a rank other than 0 [min_ub] ends as the tighten step
    left it, whatever the local search reached; on rank 0 it ends at most
    the local bound and at most every other contribution. *)
Theorem mpi_call_reduces_local_search :
  forall w n f x y threshold st tr s,
    at_most (left (f x y)) (min_ub st) ->
    threshold < width x ->
    minimize w (S n) f x y threshold st true = (tr, Some s) ->
    exists tr1 st1 tl loc,
      tighten (f x y) st = (tr1, Some st1) /\
      local_search w n f x y threshold st1 = (tl, Some loc) /\
      tr = EvCall x y :: tr1 ++ tl ++ [EvReduce s] /\
      ml s = ml loc /\
      ble (min_ub loc) (min_ub st1) /\
      (mpi_rank w <> 0%Z -> min_ub s = min_ub st1) /\
      (mpi_rank w = 0%Z ->
       ble (min_ub s) (min_ub loc) /\
       Forall (ble (min_ub s)) (mpi_others w)).
Proof.
  intros w n f x y t st tr s Hp Hw E.
  destruct (mpi_call_inv _ _ _ _ _ _ _ _ _ E)
    as [[Ha _] | [_ [tr1 [st1 [Et [[Hl _] | [_ [tl [loc [El [-> ->]]]]]]]]]]].
  - exfalso. destruct (min_ub st); simpl in *; [lra | contradiction].
  - exfalso. lra.
  - exists tr1, st1, tl, loc.
    split; [exact Et |]. split; [exact El |]. split; [reflexivity |].
    split; [reflexivity |]. split; [| split].
    + apply local_search_run in El.
      destruct (rank_quadrant (mpi_rank w) x y).
      * eapply run_mono; exact El.
      * destruct El as [_ ->]. apply ble_refl.
    + intros Hr. simpl. unfold MPI_Reduce_MIN.
      apply Z.eqb_neq in Hr. rewrite Hr. reflexivity.
    + intros Hr. simpl. unfold MPI_Reduce_MIN. rewrite Hr. simpl.
      apply fold_bmin_le.
Qed.

(** X10.  With [use_mpi] set, a call on a well-formed box enters,
    besides its own box, only boxes inside the quadrant lines 63-70 give
    its rank: [(xl,yl)], [(xl,yr)], [(xr,yl)], [(xr,yr)] for ranks 0, 1,
    2, 3, and no box at all for any other rank.  This holds of every
    trace of the call, whether or not it gets as far as the reduction. *)
Theorem mpi_call_stays_in_own_quadrant :
  forall w n f x y threshold st,
    valid x -> valid y ->
    forall b, In b (calls (events (minimize w (S n) f x y threshold st true))) ->
      b = (x, y) \/
      exists q, rank_quadrant (mpi_rank w) x y = Some q /\
                In q (quadrants x y) /\ inside_box (fst q) (snd q) b.
Proof.
  intros w n f x y t st Hx Hy.
  apply Forall_forall. rewrite minimize_step_mpi.
  destruct (gt_bound (left (f x y)) (min_ub st)).
  - simpl. constructor; [now left | constructor].
  - apply Forall_calls_and_then; [apply Forall_calls_and_then |].
    + simpl. constructor; [now left | constructor].
    + intros s _. rewrite tighten_no_calls. constructor.
    + intros st1 _. destruct (Qle_bool (width x) t); [simpl; constructor |].
      apply Forall_calls_and_then; [| intros; simpl; constructor].
      unfold local_search.
      destruct (rank_quadrant (mpi_rank w) x y) as [q |] eqn:Eq;
        [| simpl; constructor].
      destruct (rank_quadrant_some _ _ _ _ Eq) as [Hq V].
      destruct (V Hx Hy) as [Vx [Vy _]].
      eapply Forall_impl;
        [| apply (minimize_calls_inside w f t n (fst q) (snd q) st1 Vx Vy)].
      intros b [Hb _]. right. exists q. auto.
Qed.

(** * How the result depends on the bound at the start *)

(** X13.  A tighter start gives a tighter end.  For an objective that
    returns well-formed intervals and is monotone under box inclusion, of
    two sequential searches of one box that return, the one started from
    the smaller [min_ub] ends with a [min_ub] that is at most the other's,
    and not below the smaller of its own start and the other's end. *)
Theorem tighter_start_gives_tighter_end :
  forall w ma mb f x y threshold sa sb tra a trb b,
    valid_fun f -> incl_mono f -> valid x -> valid y ->
    ble (min_ub sb) (min_ub sa) ->
    minimize w ma f x y threshold sa false = (tra, Some a) ->
    minimize w mb f x y threshold sb false = (trb, Some b) ->
    ble (min_ub b) (min_ub a) /\
    ble (bmin (min_ub sb) (min_ub a)) (min_ub b).
Proof.
  intros w ma mb f x y t sa sb tra a trb b Hf Hm Hx Hy Hab Ea Eb.
  apply (minimize_lift w f t ma (Nat.max ma mb)) in Ea; [| lia].
  apply (minimize_lift w f t mb (Nat.max ma mb)) in Eb; [| lia].
  apply (minimize_sim w f t Hf Hm (Nat.max ma mb) x y sa sb a b Hx Hy Hab).
  - rewrite Ea. reflexivity.
  - rewrite Eb. reflexivity.
Qed.

(** X14.  For an objective that returns well-formed intervals and is
    monotone under box inclusion, a search that returns cannot have
    brought [min_ub] below a value that is at most the bound at the start
    and at most the left endpoint of the enclosure of the box: a box the
    prune test rejects could not have improved the bound. *)
Theorem final_bound_at_least_left_endpoint :
  forall w m f x y threshold st tr s c,
    valid_fun f -> incl_mono f -> valid x -> valid y ->
    minimize w m f x y threshold st false = (tr, Some s) ->
    at_most c (min_ub st) -> c <= left (f x y) ->
    at_most c (min_ub s).
Proof.
  intros w m f x y t st tr s c Hf Hm Hx Hy E Hc Hl.
  apply (minimize_above_left w f t Hf Hm m x y st s c Hx Hy);
    [rewrite E; reflexivity | exact Hc | exact Hl].
Qed.

(** * Instances of the further theorems *)

Lemma itv_0_2_valid : valid (itv 0 2).
Proof. unfold valid. simpl. lra. Qed.

Lemma f_sum_encloses : encloses f_sum g_sum.
Proof.
  intros x y [px py] [[H1 H2] [H3 H4]]. unfold g_sum, left, right.
  simpl in *. lra.
Qed.

Lemma f_sum_incl_mono : incl_mono f_sum.
Proof.
  intros x y x' y' _ _ [H1 H2] [H3 H4]. unfold f_sum, left, right. simpl. lra.
Qed.

(** The three runs of the instances return. *)
Lemma search_0_2_returns :
  minimize solo 2 f_sum (itv 0 2) (itv 0 2) 1 initial_state false
  = (events search_0_2, Some (end_of search_0_2)).
Proof. vm_compute. reflexivity. Qed.

Lemma search_0_2_from_3_returns :
  minimize solo 2 f_sum (itv 0 2) (itv 0 2) 1 (mkState (Fin 3) []) false
  = (events search_0_2_from_3, Some (end_of search_0_2_from_3)).
Proof. vm_compute. reflexivity. Qed.

Lemma mpi_call_0_2_returns :
  minimize (mkWorld 1 []) 3 f_sum (itv 0 2) (itv 0 2) 1 initial_state true
  = (events mpi_call_0_2, Some (end_of mpi_call_0_2)).
Proof. vm_compute. reflexivity. Qed.

Lemma search_stays_in_box_witness :
  valid (itv 0 2) /\
  Forall (fun b => inside_box (itv 0 2) (itv 0 2) b /\
                   valid (fst b) /\ valid (snd b))
         (calls (events (minimize solo 2 f_sum (itv 0 2) (itv 0 2) 1
                                  initial_state false))).
Proof.
  split; [exact itv_0_2_valid |].
  exact (search_stays_in_box solo 2 f_sum (itv 0 2) (itv 0 2) 1 initial_state
           itv_0_2_valid itv_0_2_valid).
Defined.

Lemma final_bound_is_least_right_endpoint_witness :
  let s := end_of search_0_2 in
  valid_fun f_sum /\ valid (itv 0 2) /\
  minimize solo 2 f_sum (itv 0 2) (itv 0 2) 1 initial_state false
    = (events search_0_2, Some s) /\
  ble (min_ub s) (min_ub initial_state) /\
  Forall (fun b => ble (min_ub s) (Fin (right (f_sum (fst b) (snd b)))))
         (calls (events search_0_2)) /\
  (min_ub s = min_ub initial_state \/
   Exists (fun b => min_ub s = Fin (right (f_sum (fst b) (snd b))))
          (calls (events search_0_2))).
Proof.
  cbv zeta.
  split; [exact f_sum_valid |]. split; [exact itv_0_2_valid |].
  split; [exact search_0_2_returns |].
  exact (final_bound_is_least_right_endpoint solo 2 f_sum (itv 0 2) (itv 0 2) 1
           initial_state _ _ f_sum_valid itv_0_2_valid itv_0_2_valid
           search_0_2_returns).
Defined.

Lemma stored_minimizers_are_leaf_records_witness :
  valid (itv 0 2) /\
  minimize solo 2 f_sum (itv 0 2) (itv 0 2) 1 initial_state false
    = (events search_0_2, Some (end_of search_0_2)) /\
  forall e, In e (ml (end_of search_0_2)) ->
    In e (ml initial_state) \/
    exists b, In b (calls (events search_0_2)) /\
              inside_box (itv 0 2) (itv 0 2) b /\
              width (fst b) <= 1 /\ e = minimizer_of f_sum b.
Proof.
  split; [exact itv_0_2_valid |]. split; [exact search_0_2_returns |].
  exact (stored_minimizers_are_leaf_records solo 2 f_sum (itv 0 2) (itv 0 2) 1
           initial_state _ _ itv_0_2_valid itv_0_2_valid search_0_2_returns).
Defined.

Lemma minimizers_dropped_only_when_bound_drops_witness :
  let s := end_of search_0_2 in
  minimize solo 2 f_sum (itv 0 2) (itv 0 2) 1 initial_state false
    = (events search_0_2, Some s) /\
  ((min_ub s = min_ub initial_state /\ incl (ml initial_state) (ml s)) \/
   blt (min_ub s) (min_ub initial_state)).
Proof.
  cbv zeta. split; [exact search_0_2_returns |].
  exact (minimizers_dropped_only_when_bound_drops solo 2 f_sum (itv 0 2)
           (itv 0 2) 1 initial_state _ _ search_0_2_returns).
Defined.

Lemma no_point_below_bound_is_lost_witness :
  let s := end_of search_0_2 in
  encloses f_sum g_sum /\ ml_sorted (ml initial_state) /\
  minimize solo 2 f_sum (itv 0 2) (itv 0 2) 1 initial_state false
    = (events search_0_2, Some s) /\
  forall p, below (g_sum p) (min_ub s) ->
    (covered g_sum initial_state p -> covered g_sum s p) /\
    (in_box (itv 0 2, itv 0 2) p -> covered g_sum s p).
Proof.
  cbv zeta.
  assert (Hs : ml_sorted (ml initial_state)) by constructor.
  split; [exact f_sum_encloses |]. split; [exact Hs |].
  split; [exact search_0_2_returns |].
  exact (no_point_below_bound_is_lost solo 2 f_sum g_sum (itv 0 2) (itv 0 2) 1
           initial_state _ _ f_sum_encloses Hs search_0_2_returns).
Defined.


Lemma mpi_call_reduces_local_search_witness :
  let w := mkWorld 1 [] in
  let tr := events mpi_call_0_2 in
  let s := end_of mpi_call_0_2 in
  at_most (left (f_sum (itv 0 2) (itv 0 2))) (min_ub initial_state) /\
  1 < width (itv 0 2) /\
  minimize w 3 f_sum (itv 0 2) (itv 0 2) 1 initial_state true = (tr, Some s) /\
  exists tr1 st1 tl loc,
    tighten (f_sum (itv 0 2) (itv 0 2)) initial_state = (tr1, Some st1) /\
    local_search w 2 f_sum (itv 0 2) (itv 0 2) 1 st1 = (tl, Some loc) /\
    tr = EvCall (itv 0 2) (itv 0 2) :: tr1 ++ tl ++ [EvReduce s] /\
    ml s = ml loc /\
    ble (min_ub loc) (min_ub st1) /\
    (mpi_rank w <> 0%Z -> min_ub s = min_ub st1) /\
    (mpi_rank w = 0%Z ->
     ble (min_ub s) (min_ub loc) /\
     Forall (ble (min_ub s)) (mpi_others w)).
Proof.
  cbv zeta.
  assert (Hw : 1 < width (itv 0 2)) by reflexivity.
  split; [exact I |]. split; [exact Hw |]. split; [exact mpi_call_0_2_returns |].
  exact (mpi_call_reduces_local_search (mkWorld 1 []) 2 f_sum (itv 0 2)
           (itv 0 2) 1 initial_state _ _ I Hw mpi_call_0_2_returns).
Defined.

Lemma mpi_call_stays_in_own_quadrant_witness :
  let w := mkWorld 1 [] in
  valid (itv 0 2) /\
  forall b,
    In b (calls (events (minimize w 3 f_sum (itv 0 2) (itv 0 2) 1
                                  initial_state true))) ->
    b = (itv 0 2, itv 0 2) \/
    exists q, rank_quadrant (mpi_rank w) (itv 0 2) (itv 0 2) = Some q /\
              In q (quadrants (itv 0 2) (itv 0 2)) /\
              inside_box (fst q) (snd q) b.
Proof.
  cbv zeta.
  split; [exact itv_0_2_valid |].
  exact (mpi_call_stays_in_own_quadrant (mkWorld 1 []) 2 f_sum (itv 0 2)
           (itv 0 2) 1 initial_state itv_0_2_valid itv_0_2_valid).
Defined.

Lemma tighter_start_gives_tighter_end_witness :
  let sb := mkState (Fin 3) [] in
  let a := end_of search_0_2 in
  let b := end_of search_0_2_from_3 in
  valid_fun f_sum /\ incl_mono f_sum /\ valid (itv 0 2) /\
  ble (min_ub sb) (min_ub initial_state) /\
  minimize solo 2 f_sum (itv 0 2) (itv 0 2) 1 initial_state false
    = (events search_0_2, Some a) /\
  minimize solo 2 f_sum (itv 0 2) (itv 0 2) 1 sb false
    = (events search_0_2_from_3, Some b) /\
  ble (min_ub b) (min_ub a) /\
  ble (bmin (min_ub sb) (min_ub a)) (min_ub b).
Proof.
  cbv zeta.
  split; [exact f_sum_valid |]. split; [exact f_sum_incl_mono |].
  split; [exact itv_0_2_valid |]. split; [exact I |].
  split; [exact search_0_2_returns |].
  split; [exact search_0_2_from_3_returns |].
  exact (tighter_start_gives_tighter_end solo 2 2 f_sum (itv 0 2) (itv 0 2) 1
           initial_state (mkState (Fin 3) []) _ _ _ _ f_sum_valid
           f_sum_incl_mono itv_0_2_valid itv_0_2_valid I search_0_2_returns
           search_0_2_from_3_returns).
Defined.

Lemma final_bound_at_least_left_endpoint_witness :
  let s := end_of search_0_2 in
  valid_fun f_sum /\ incl_mono f_sum /\ valid (itv 0 2) /\
  minimize solo 2 f_sum (itv 0 2) (itv 0 2) 1 initial_state false
    = (events search_0_2, Some s) /\
  at_most 0 (min_ub initial_state) /\
  0 <= left (f_sum (itv 0 2) (itv 0 2)) /\
  at_most 0 (min_ub s).
Proof.
  cbv zeta.
  assert (Hl : 0 <= left (f_sum (itv 0 2) (itv 0 2))) by (simpl; lra).
  split; [exact f_sum_valid |]. split; [exact f_sum_incl_mono |].
  split; [exact itv_0_2_valid |]. split; [exact search_0_2_returns |].
  split; [exact I |]. split; [exact Hl |].
  exact (final_bound_at_least_left_endpoint solo 2 f_sum (itv 0 2) (itv 0 2) 1
           initial_state _ _ 0 f_sum_valid f_sum_incl_mono itv_0_2_valid
           itv_0_2_valid search_0_2_returns I Hl).
Defined.
